(** * global_lock.h: a single process-wide lock

    A shallow embedding of [global_lock.h] (version 0.9.0) and the
    properties its specification states about it.

    The header is two programs in one file.  The first is run by the C
    preprocessor: from the macros of the translation unit it picks the
    locking primitive, the spin-wait instruction and the headers of the two
    public functions, or stops the build with [#error].  The second is the
    code the chosen branch leaves behind: [GLOBAL_LOCK_FUNC_NAME],
    [GLOBAL_UNLOCK_FUNC_NAME] and [global_lock_quit], run by the threads of
    one process over the header's file-scope objects.

    Part I embeds the preprocessor program as functions of the macro
    environment.  Part II embeds the run-time code as an interleaving
    semantics: one atomic step of one thread at a time, every library call
    being one step. *)

From stdpp Require Import base option list strings.
From Stdlib Require Import ZArith Lia Bool.
From Stdlib Require DecimalString.

Local Open Scope string_scope.
Local Open Scope Z_scope.

(* ===================================================================== *)
(** * Part I: the preprocessor program                                    *)
(* ===================================================================== *)

(** The macros the header tests.  A macro tested only with [defined] is a
    [bool]; a macro whose value is compared is [Some v] when defined. *)
Record Macros := {
  GLOBAL_LOCK_FUNC_NAME_opt : option string;
  GLOBAL_UNLOCK_FUNC_NAME_opt : option string;
  GLOBAL_LOCK_FUNC_SCOPE_opt : option (list string);
  __STDC_VERSION__ : option Z;
  __STDC_NO_THREADS__ : bool;
  __STDC_NO_ATOMICS__ : bool;
  _POSIX_THREADS : option Z;
  _POSIX_PRIORITY_SCHEDULING : bool;
  _WIN32 : bool;
  _WIN32_WINNT : option Z;
  __GNUC__ : option Z;
  __GNUC_MINOR__ : option Z;
  __clang__ : bool;
  (** [Some f] when the compiler has the [__has_builtin] operator; [f] then
      answers for a builtin's name. *)
  __has_builtin : option (string → bool);
  __x86_64__ : bool;
  __amd64__ : bool;
  _M_X64 : bool;
  __i386__ : bool;
  _M_IX86 : bool;
}.

(** [defined (X)] and the value of [X] inside [#if]: an identifier that is
    not a macro counts as 0 there. *)
Definition defined {A} (x : option A) : bool :=
  match x with Some _ => true | None => false end.

Definition value (x : option Z) : Z :=
  match x with Some v => v | None => 0 end.

(** What a run of the preprocessor gives: the text went through, or an
    [#error] directive was reached. *)
Inductive cpp (A : Type) : Type :=
| cpp_ok (a : A)
| cpp_error (msg : string).
Arguments cpp_ok {A} a.
Arguments cpp_error {A} msg.

Definition cpp_bind {A B} (x : cpp A) (f : A → cpp B) : cpp B :=
  match x with
  | cpp_ok a => f a
  | cpp_error msg => cpp_error msg
  end.

Notation "x ←' e ; k" := (cpp_bind e (fun x => k))
  (at level 100, e at next level, k at level 200, right associativity,
   only parsing).

(** The six primitives the header can bind the lock to, named by the macro
    or the branch that stands for each (the source spells the fourth
    [STDSTOMIC_AVAILABLE]). *)
Inductive LockPrimitiveKind :=
| C11_THREADS_AVAILABLE
| PTHREAD_AVAILABLE
| WIN32_CRITICAL_SECTION
| STDSTOMIC_AVAILABLE
| GCC_ATOMIC_BUILTIN_AVAILABLE
| GCC_SYNC_BUILTIN_AVAILABLE.

#[global] Instance LockPrimitiveKind_eq_dec : EqDecision LockPrimitiveKind.
Proof. solve_decision. Defined.

Definition is_spin (k : LockPrimitiveKind) : bool :=
  match k with
  | STDSTOMIC_AVAILABLE | GCC_ATOMIC_BUILTIN_AVAILABLE
  | GCC_SYNC_BUILTIN_AVAILABLE => true
  | _ => false
  end.

Definition vista_message : string :=
  "This program requires Windows Vista or later. Define _WIN32_WINNT accordingly.".

Definition no_mechanism_message : string :=
  "No valid locking mechanism found on this platform.".

(** Lines 66-68. *)
Definition winnt_gate (m : Macros) : cpp unit :=
  if _WIN32 m && (negb (defined (_WIN32_WINNT m)) || (value (_WIN32_WINNT m) <? 0x0600))
  then cpp_error vista_message
  else cpp_ok tt.

(** Lines 120-132: the probe for the two GCC builtins; [None] when neither
    macro gets defined. *)
Definition gcc_builtin_probe (m : Macros) : option LockPrimitiveKind :=
  match __has_builtin m with
  | Some has =>
      if has "__atomic_exchange_n" then Some GCC_ATOMIC_BUILTIN_AVAILABLE
      else if has "__sync_lock_test_and_set" then Some GCC_SYNC_BUILTIN_AVAILABLE
      else None
  | None =>
      if defined (__GNUC_MINOR__ m) then
        if (value (__GNUC__ m) >? 4)
           || ((value (__GNUC__ m) =? 4) && (value (__GNUC_MINOR__ m) >=? 7))
        then Some GCC_ATOMIC_BUILTIN_AVAILABLE
        else if negb (__clang__ m)
                && ((value (__GNUC__ m) =? 4) && (value (__GNUC_MINOR__ m) >=? 1))
        then Some GCC_SYNC_BUILTIN_AVAILABLE
        else None
      else None
  end.

(** Lines 76-140: the [#if]/[#elif] chain that declares the lock object. *)
Definition select_primitive (m : Macros) : cpp LockPrimitiveKind :=
  if defined (__STDC_VERSION__ m) && (value (__STDC_VERSION__ m) >=? 201112)
     && negb (__STDC_NO_THREADS__ m)
  then cpp_ok C11_THREADS_AVAILABLE
  else if defined (_POSIX_THREADS m) && (value (_POSIX_THREADS m) >? 0)
  then cpp_ok PTHREAD_AVAILABLE
  else if _WIN32 m
  then cpp_ok WIN32_CRITICAL_SECTION
  else if defined (__STDC_VERSION__ m) && (value (__STDC_VERSION__ m) >=? 201112)
          && negb (__STDC_NO_ATOMICS__ m)
  then cpp_ok STDSTOMIC_AVAILABLE
  else if defined (__GNUC__ m)
  then match gcc_builtin_probe m with
       | Some k => cpp_ok k
       | None => cpp_error no_mechanism_message
       end
  else cpp_error no_mechanism_message.

(** The three bodies [SPIN_WAIT()] can expand to. *)
Inductive SpinWaitKind :=
| mm_pause
| sched_yield
| busy_loop.

(** Lines 143-153.  [SPIN_WAIT] stays undefined ([None]) on the three
    primitives that block in the operating system. *)
Definition SPIN_WAIT_macro (m : Macros) (k : LockPrimitiveKind) : option SpinWaitKind :=
  if negb (bool_decide (k = C11_THREADS_AVAILABLE))
     && negb (bool_decide (k = PTHREAD_AVAILABLE))
     && negb (_WIN32 m)
  then
    if __x86_64__ m || __amd64__ m || _M_X64 m || __i386__ m || _M_IX86 m
    then Some mm_pause
    else if _POSIX_PRIORITY_SCHEDULING m
    then Some sched_yield
    else Some busy_loop
  else None.

(** Lines 40-50: the three configuration macros and their defaults. *)
Definition GLOBAL_LOCK_FUNC_NAME (m : Macros) : string :=
  match GLOBAL_LOCK_FUNC_NAME_opt m with Some n => n | None => "global_lock_lock" end.

Definition GLOBAL_UNLOCK_FUNC_NAME (m : Macros) : string :=
  match GLOBAL_UNLOCK_FUNC_NAME_opt m with Some n => n | None => "global_lock_unlock" end.

Definition GLOBAL_LOCK_FUNC_SCOPE (m : Macros) : list string :=
  match GLOBAL_LOCK_FUNC_SCOPE_opt m with Some toks => toks | None => [] end.

(** Lines 156 and 190 after macro replacement: the tokens in front of the
    body of each public function. *)
Definition lock_declarator (m : Macros) : list string :=
  GLOBAL_LOCK_FUNC_SCOPE m ++ ["void"; GLOBAL_LOCK_FUNC_NAME m; "("; "void"; ")"].

Definition unlock_declarator (m : Macros) : list string :=
  GLOBAL_LOCK_FUNC_SCOPE m ++ ["void"; GLOBAL_UNLOCK_FUNC_NAME m; "("; "void"; ")"].

(** What the preprocessor hands to the compiler proper. *)
Record TranslationUnit := {
  tu_primitive : LockPrimitiveKind;
  tu_spin_wait : option SpinWaitKind;
  tu_lock : list string;
  tu_unlock : list string;
}.

(** The header from top to bottom. *)
Definition preprocess (m : Macros) : cpp TranslationUnit :=
  _ ←' winnt_gate m;
  k ←' select_primitive m;
  cpp_ok {| tu_primitive := k;
            tu_spin_wait := SPIN_WAIT_macro m k;
            tu_lock := lock_declarator m;
            tu_unlock := unlock_declarator m |}.

(** A bare hosted environment without any of the tested macros; the
    examples below switch macros on from here. *)
Definition no_macros : Macros := {|
  GLOBAL_LOCK_FUNC_NAME_opt := None;
  GLOBAL_UNLOCK_FUNC_NAME_opt := None;
  GLOBAL_LOCK_FUNC_SCOPE_opt := None;
  __STDC_VERSION__ := None;
  __STDC_NO_THREADS__ := false;
  __STDC_NO_ATOMICS__ := false;
  _POSIX_THREADS := None;
  _POSIX_PRIORITY_SCHEDULING := false;
  _WIN32 := false;
  _WIN32_WINNT := None;
  __GNUC__ := None;
  __GNUC_MINOR__ := None;
  __clang__ := false;
  __has_builtin := None;
  __x86_64__ := false;
  __amd64__ := false;
  _M_X64 := false;
  __i386__ := false;
  _M_IX86 := false;
|}.

(* ===================================================================== *)
(** * Part II: the run-time program                                       *)
(* ===================================================================== *)

(** ** The library objects the header declares

    Each object carries the part of its state the calls of the header can
    tell apart.  Threads are numbered from 0. *)

(** [mtx_t] and [pthread_mutex_t]: storage that was never initialised, a
    free mutex, a mutex held by a thread, a destroyed mutex. *)
Inductive mtx_t :=
| mtx_raw
| mtx_free
| mtx_held (holder : nat)
| mtx_destroyed.

(** [once_flag] and [INIT_ONCE]. *)
Inductive once_flag :=
| ONCE_FLAG_INIT
| once_running
| once_complete.

(** [CRITICAL_SECTION]; the holder may enter again, [depth] counts the
    entries beyond the first. *)
Inductive CRITICAL_SECTION :=
| cs_raw
| cs_free
| cs_owned (holder : nat) (depth : nat)
| cs_deleted.

(** What a library call does to the thread that makes it. *)
Inductive outcome (A : Type) : Type :=
| returns (a : A)
| blocks
| undefined_behaviour.
Arguments returns {A} a.
Arguments blocks {A}.
Arguments undefined_behaviour {A}.

Inductive thrd_status := thrd_success | thrd_nomem | thrd_error.

Definition mtx_lock (self : nat) (m : mtx_t) : outcome mtx_t :=
  match m with
  | mtx_free => returns (mtx_held self)
  | mtx_held owner => if bool_decide (owner = self) then undefined_behaviour else blocks
  | mtx_raw | mtx_destroyed => undefined_behaviour
  end.

Definition mtx_unlock (self : nat) (m : mtx_t) : outcome mtx_t :=
  match m with
  | mtx_held owner => if bool_decide (owner = self) then returns mtx_free else undefined_behaviour
  | _ => undefined_behaviour
  end.

Definition mtx_destroy (m : mtx_t) : outcome mtx_t :=
  match m with
  | mtx_free => returns mtx_destroyed
  | _ => undefined_behaviour
  end.

Definition InitializeCriticalSection (cs : CRITICAL_SECTION) : outcome CRITICAL_SECTION :=
  match cs with
  | cs_raw | cs_deleted => returns cs_free
  | _ => undefined_behaviour
  end.

Definition EnterCriticalSection (self : nat) (cs : CRITICAL_SECTION) : outcome CRITICAL_SECTION :=
  match cs with
  | cs_free => returns (cs_owned self 0)
  | cs_owned owner n => if bool_decide (owner = self) then returns (cs_owned owner (S n)) else blocks
  | cs_raw | cs_deleted => undefined_behaviour
  end.

Definition LeaveCriticalSection (self : nat) (cs : CRITICAL_SECTION) : outcome CRITICAL_SECTION :=
  match cs with
  | cs_owned owner n =>
      if bool_decide (owner = self)
      then returns (match n with O => cs_free | S n' => cs_owned owner n' end)
      else undefined_behaviour
  | _ => undefined_behaviour
  end.

Definition DeleteCriticalSection (cs : CRITICAL_SECTION) : outcome CRITICAL_SECTION :=
  match cs with
  | cs_free => returns cs_deleted
  | _ => undefined_behaviour
  end.

(** [OSVERSIONINFO], the fields [GetVersionEx] fills in. *)
Record OSVERSIONINFO := {
  dwMajorVersion : Z;
  dwMinorVersion : Z;
  dwBuildNumber : Z;
}.

(** What the platform answers to the two calls of the header that can
    fail, and the name the compiler puts in [__FILE__]. *)
Record Platform := {
  mtx_init_result : thrd_status;
  GetVersionEx : option OSVERSIONINFO;
  __FILE__ : string;
}.

(** [EXIT_FAILURE] of <stdlib.h>. *)
Definition EXIT_FAILURE : Z := 1.

(** ** The file-scope objects of the header *)
Record Statics := {
  global_lock_lock_mutex : mtx_t;
  mtx_init_once : once_flag;
  cs_init_once : once_flag;
  global_lock_lock_cs : CRITICAL_SECTION;
  winver_checked : bool;
  global_lock_lock_flag : bool;
  global_lock_lock_int : Z;
}.

Definition set_mutex (v : mtx_t) (s : Statics) : Statics :=
  {| global_lock_lock_mutex := v; mtx_init_once := mtx_init_once s;
     cs_init_once := cs_init_once s; global_lock_lock_cs := global_lock_lock_cs s;
     winver_checked := winver_checked s; global_lock_lock_flag := global_lock_lock_flag s;
     global_lock_lock_int := global_lock_lock_int s |}.

Definition set_mtx_init_once (v : once_flag) (s : Statics) : Statics :=
  {| global_lock_lock_mutex := global_lock_lock_mutex s; mtx_init_once := v;
     cs_init_once := cs_init_once s; global_lock_lock_cs := global_lock_lock_cs s;
     winver_checked := winver_checked s; global_lock_lock_flag := global_lock_lock_flag s;
     global_lock_lock_int := global_lock_lock_int s |}.

Definition set_cs_init_once (v : once_flag) (s : Statics) : Statics :=
  {| global_lock_lock_mutex := global_lock_lock_mutex s; mtx_init_once := mtx_init_once s;
     cs_init_once := v; global_lock_lock_cs := global_lock_lock_cs s;
     winver_checked := winver_checked s; global_lock_lock_flag := global_lock_lock_flag s;
     global_lock_lock_int := global_lock_lock_int s |}.

Definition set_cs (v : CRITICAL_SECTION) (s : Statics) : Statics :=
  {| global_lock_lock_mutex := global_lock_lock_mutex s; mtx_init_once := mtx_init_once s;
     cs_init_once := cs_init_once s; global_lock_lock_cs := v;
     winver_checked := winver_checked s; global_lock_lock_flag := global_lock_lock_flag s;
     global_lock_lock_int := global_lock_lock_int s |}.

Definition set_winver_checked (v : bool) (s : Statics) : Statics :=
  {| global_lock_lock_mutex := global_lock_lock_mutex s; mtx_init_once := mtx_init_once s;
     cs_init_once := cs_init_once s; global_lock_lock_cs := global_lock_lock_cs s;
     winver_checked := v; global_lock_lock_flag := global_lock_lock_flag s;
     global_lock_lock_int := global_lock_lock_int s |}.

Definition set_flag (v : bool) (s : Statics) : Statics :=
  {| global_lock_lock_mutex := global_lock_lock_mutex s; mtx_init_once := mtx_init_once s;
     cs_init_once := cs_init_once s; global_lock_lock_cs := global_lock_lock_cs s;
     winver_checked := winver_checked s; global_lock_lock_flag := v;
     global_lock_lock_int := global_lock_lock_int s |}.

Definition set_int (v : Z) (s : Statics) : Statics :=
  {| global_lock_lock_mutex := global_lock_lock_mutex s; mtx_init_once := mtx_init_once s;
     cs_init_once := cs_init_once s; global_lock_lock_cs := global_lock_lock_cs s;
     winver_checked := winver_checked s; global_lock_lock_flag := global_lock_lock_flag s;
     global_lock_lock_int := v |}.

(** The initialisers of lines 80-134.  Only the POSIX mutex is usable as
    declared ([PTHREAD_MUTEX_INITIALIZER]); [mtx_t] and [CRITICAL_SECTION]
    are zeroed storage until their init call. *)
Definition initial_statics (k : LockPrimitiveKind) : Statics :=
  {| global_lock_lock_mutex :=
       match k with PTHREAD_AVAILABLE => mtx_free | _ => mtx_raw end;
     mtx_init_once := ONCE_FLAG_INIT;
     cs_init_once := ONCE_FLAG_INIT;
     global_lock_lock_cs := cs_raw;
     winver_checked := false;
     global_lock_lock_flag := false;
     global_lock_lock_int := 0 |}.

(** ** Threads and the process

    The threads run the loop of the specification's mutual-exclusion test,
    [for (i = 0; i < N; ++i) { lock (); tmp = counter; counter = tmp + 1;
    unlock (); }], the increment split into its load and its store.  A
    thread stands at one of these points; the header's own points are named
    with the source lines they stand for. *)
Inductive Point :=
| at_loop          (** the test [i < N] of the caller *)
| at_winver_check  (** line 164 *)
| at_winver_query  (** lines 165-168 *)
| at_once          (** line 158 or 171, before the once-guard *)
| at_init          (** line 84 or 101, inside the guarded callback *)
| at_once_return   (** the callback returned, the guard is to be completed *)
| at_acquire       (** line 160, 162, 173, 175, 179 or 183 *)
| at_spin_wait     (** line 176, 180 or 184 *)
| at_read          (** the caller's [tmp = counter] *)
| at_write         (** the caller's [counter = tmp + 1] *)
| at_release       (** lines 191-203 *)
| at_end           (** the loop is over *)
| at_exit.         (** inside [exit], which does not return *)

#[global] Instance Point_eq_dec : EqDecision Point.
Proof. solve_decision. Defined.

Record Thread := {
  pc : Point;
  i : nat;
  tmp : nat;
}.

Definition goto (pt : Point) (th : Thread) : Thread :=
  {| pc := pt; i := i th; tmp := tmp th |}.

(** What one [SPIN_WAIT ()] executes. *)
Inductive SpinAction := do_pause | do_yield | do_barrier.

#[global] Instance SpinAction_eq_dec : EqDecision SpinAction.
Proof. solve_decision. Defined.

(** The calls a run leaves in the log, with the thread that made them. *)
Inductive Event :=
| ev_version_query                (** [is_windows_vista_or_later ()] *)
| ev_once_guard                   (** [call_once] or [InitOnceExecuteOnce] let the thread through *)
| ev_construct                    (** [init_mtx] or [InitCriticalSection] was entered *)
| ev_acquire                      (** [mtx_lock], [pthread_mutex_lock] or [EnterCriticalSection] returned *)
| ev_test_and_set (previous : bool)  (** one atomic exchange and the value it found *)
| ev_spin_wait (did : list SpinAction)  (** [SPIN_WAIT ()] and what it executed *)
| ev_release.                     (** the call of the unlock function *)

#[global] Instance Event_eq_dec : EqDecision Event.
Proof. solve_decision. Defined.

Record Process := {
  statics : Statics;
  counter : nat;
  stderr : list string;
  exit_status : option Z;
  undefined : bool;
  log : list (nat * Event);
  threads : list Thread;
}.

Definition with_statics (f : Statics → Statics) (p : Process) : Process :=
  {| statics := f (statics p); counter := counter p; stderr := stderr p;
     exit_status := exit_status p; undefined := undefined p; log := log p;
     threads := threads p |}.

Definition set_counter (v : nat) (p : Process) : Process :=
  {| statics := statics p; counter := v; stderr := stderr p;
     exit_status := exit_status p; undefined := undefined p; log := log p;
     threads := threads p |}.

Definition fprintf_stderr (text : string) (p : Process) : Process :=
  {| statics := statics p; counter := counter p; stderr := stderr p ++ [text];
     exit_status := exit_status p; undefined := undefined p; log := log p;
     threads := threads p |}.

Definition exit (status : Z) (p : Process) : Process :=
  {| statics := statics p; counter := counter p; stderr := stderr p;
     exit_status := Some status; undefined := undefined p; log := log p;
     threads := threads p |}.

Definition undefined_from_here (p : Process) : Process :=
  {| statics := statics p; counter := counter p; stderr := stderr p;
     exit_status := exit_status p; undefined := true; log := log p;
     threads := threads p |}.

Definition record_event (self : nat) (ev : Event) (p : Process) : Process :=
  {| statics := statics p; counter := counter p; stderr := stderr p;
     exit_status := exit_status p; undefined := undefined p;
     log := (self, ev) :: log p; threads := threads p |}.

Definition set_threads (ths : list Thread) (p : Process) : Process :=
  {| statics := statics p; counter := counter p; stderr := stderr p;
     exit_status := exit_status p; undefined := undefined p; log := log p;
     threads := ths |}.

(** A process runs until [exit] was called or the behaviour is undefined. *)
Definition running (p : Process) : bool :=
  negb (defined (exit_status p)) && negb (undefined p).

(** ** The functions of the header *)

Definition newline : string := String (Ascii.ascii_of_nat 10) EmptyString.

(** The text of line 85, [__LINE__] being 85 there. *)
Definition init_mtx_message (pf : Platform) : string :=
  "Failed to initialize the mutex!" ++ newline
  ++ "File: " ++ __FILE__ pf ++ "   Line: "
  ++ DecimalString.NilZero.string_of_uint (Nat.to_uint 85) ++ newline.

(** [mtx_init (&global_lock_lock_mutex, mtx_plain)]. *)
Definition mtx_init (pf : Platform) (m : mtx_t) : thrd_status * mtx_t :=
  match mtx_init_result pf with
  | thrd_success => (thrd_success, mtx_free)
  | failure => (failure, m)
  end.

(** Lines 83-88. *)
Definition init_mtx (pf : Platform) (p : Process) : Process :=
  let '(status, m) := mtx_init pf (global_lock_lock_mutex (statics p)) in
  let p := with_statics (set_mutex m) p in
  match status with
  | thrd_success => p
  | _ => exit EXIT_FAILURE (fprintf_stderr (init_mtx_message pf) p)
  end.

(** Lines 99-103; the callback cannot fail. *)
Definition InitCriticalSection (p : Process) : outcome Process :=
  match InitializeCriticalSection (global_lock_lock_cs (statics p)) with
  | returns cs => returns (with_statics (set_cs cs) p)
  | blocks => blocks
  | undefined_behaviour => undefined_behaviour
  end.

(** Lines 106-113. *)
Definition is_windows_vista_or_later (pf : Platform) : bool :=
  match GetVersionEx pf with
  | None => false
  | Some osvi => dwMajorVersion osvi >=? 6
  end.

(** [do { volatile size_t i; for (i = 0; i < 1000; ++i) { barrier } }
    while (0)] of line 151: the number of barriers executed from [i] on. *)
Fixpoint busy_wait (fuel : nat) (i : Z) (barriers : nat) : nat :=
  match fuel with
  | O => barriers
  | S fuel' => if i <? 1000 then busy_wait fuel' (i + 1) (S barriers) else barriers
  end.

Definition SPIN_WAIT (sw : SpinWaitKind) : list SpinAction :=
  match sw with
  | mm_pause => [do_pause]
  | sched_yield => [do_yield]
  | busy_loop => replicate (busy_wait 1001 0 0) do_barrier
  end.
Arguments SPIN_WAIT : simpl never.

(** The build and the platform a process runs with, and the bound [N] of
    the callers' loop. *)
Record Config := {
  primitive : LockPrimitiveKind;
  spin_wait : SpinWaitKind;
  platform : Platform;
  iterations : nat;
}.

(** The first point of [GLOBAL_LOCK_FUNC_NAME] (lines 157-186). *)
Definition lock_entry (k : LockPrimitiveKind) : Point :=
  match k with
  | C11_THREADS_AVAILABLE => at_once
  | PTHREAD_AVAILABLE => at_acquire
  | WIN32_CRITICAL_SECTION => at_winver_check
  | STDSTOMIC_AVAILABLE | GCC_ATOMIC_BUILTIN_AVAILABLE
  | GCC_SYNC_BUILTIN_AVAILABLE => at_acquire
  end.

(** The once-guard of the build, if it has one. *)
Definition once_of (k : LockPrimitiveKind) (s : Statics) : option once_flag :=
  match k with
  | C11_THREADS_AVAILABLE => Some (mtx_init_once s)
  | WIN32_CRITICAL_SECTION => Some (cs_init_once s)
  | _ => None
  end.

Definition set_once_of (k : LockPrimitiveKind) (v : once_flag) (s : Statics) : Statics :=
  match k with
  | C11_THREADS_AVAILABLE => set_mtx_init_once v s
  | WIN32_CRITICAL_SECTION => set_cs_init_once v s
  | _ => s
  end.

(** The acquiring call of each branch, as one atomic step of thread
    [self]: the new process and whether the thread now holds the lock
    ([true]) or found the flag set ([false]). *)
Definition acquire (k : LockPrimitiveKind) (self : nat) (p : Process)
  : outcome (Process * bool) :=
  let s := statics p in
  match k with
  | C11_THREADS_AVAILABLE | PTHREAD_AVAILABLE =>
      match mtx_lock self (global_lock_lock_mutex s) with
      | returns m => returns (record_event self ev_acquire (with_statics (set_mutex m) p), true)
      | blocks => blocks
      | undefined_behaviour => undefined_behaviour
      end
  | WIN32_CRITICAL_SECTION =>
      match EnterCriticalSection self (global_lock_lock_cs s) with
      | returns cs => returns (record_event self ev_acquire (with_statics (set_cs cs) p), true)
      | blocks => blocks
      | undefined_behaviour => undefined_behaviour
      end
  | STDSTOMIC_AVAILABLE =>
      let previous := global_lock_lock_flag s in
      returns (record_event self (ev_test_and_set previous) (with_statics (set_flag true) p),
               negb previous)
  | GCC_ATOMIC_BUILTIN_AVAILABLE | GCC_SYNC_BUILTIN_AVAILABLE =>
      let previous := negb (global_lock_lock_int s =? 0) in
      returns (record_event self (ev_test_and_set previous) (with_statics (set_int 1) p),
               negb previous)
  end.

(** [GLOBAL_UNLOCK_FUNC_NAME] (lines 190-204), by default
    [global_lock_unlock]: one call and one step. *)
Definition global_lock_unlock (k : LockPrimitiveKind) (self : nat) (p : Process) : outcome Process :=
  let s := statics p in
  match k with
  | C11_THREADS_AVAILABLE | PTHREAD_AVAILABLE =>
      match mtx_unlock self (global_lock_lock_mutex s) with
      | returns m => returns (record_event self ev_release (with_statics (set_mutex m) p))
      | blocks => blocks
      | undefined_behaviour => undefined_behaviour
      end
  | WIN32_CRITICAL_SECTION =>
      match LeaveCriticalSection self (global_lock_lock_cs s) with
      | returns cs => returns (record_event self ev_release (with_statics (set_cs cs) p))
      | blocks => blocks
      | undefined_behaviour => undefined_behaviour
      end
  | STDSTOMIC_AVAILABLE =>
      returns (record_event self ev_release (with_statics (set_flag false) p))
  | GCC_ATOMIC_BUILTIN_AVAILABLE | GCC_SYNC_BUILTIN_AVAILABLE =>
      returns (record_event self ev_release (with_statics (set_int 0) p))
  end.

(** [global_lock_quit] (lines 207-215), called by the host once no thread
    uses the lock any more. *)
Definition global_lock_quit (k : LockPrimitiveKind) (p : Process) : outcome Process :=
  let s := statics p in
  match k with
  | C11_THREADS_AVAILABLE | PTHREAD_AVAILABLE =>
      match mtx_destroy (global_lock_lock_mutex s) with
      | returns m => returns (with_statics (set_mutex m) p)
      | blocks => blocks
      | undefined_behaviour => undefined_behaviour
      end
  | WIN32_CRITICAL_SECTION =>
      match DeleteCriticalSection (global_lock_lock_cs s) with
      | returns cs => returns (with_statics (set_cs cs) p)
      | blocks => blocks
      | undefined_behaviour => undefined_behaviour
      end
  | STDSTOMIC_AVAILABLE | GCC_ATOMIC_BUILTIN_AVAILABLE
  | GCC_SYNC_BUILTIN_AVAILABLE => returns p
  end.

(** [GLOBAL_LOCK_FUNC_NAME] (lines 156-187), by default
    [global_lock_lock]: one atomic step of thread [self] standing at the
    point [pc th] of the function.  The branch of the build decides which
    points exist; at a point of another [#elif] branch nothing can be done.
    Reaching [at_read] is the return to the caller. *)
Definition global_lock_lock (c : Config) (p : Process) (self : nat) (th : Thread)
  : outcome (Process * Thread) :=
  let k := primitive c in
  match pc th with
  | at_winver_check =>
      match k with
      | WIN32_CRITICAL_SECTION =>
          if bool_decide (winver_checked (statics p) = false)
          then returns (p, goto at_winver_query th)
          else returns (p, goto at_once th)
      | _ => blocks
      end
  | at_winver_query =>
      match k with
      | WIN32_CRITICAL_SECTION =>
          let p := record_event self ev_version_query p in
          if negb (is_windows_vista_or_later (platform c))
          then returns (exit EXIT_FAILURE p, goto at_exit th)
          else returns (with_statics (set_winver_checked true) p, goto at_once th)
      | _ => blocks
      end
  | at_once =>
      match once_of k (statics p) with
      | Some ONCE_FLAG_INIT =>
          returns (record_event self ev_once_guard
                     (with_statics (set_once_of k once_running) p),
                   goto at_init th)
      | Some once_running => blocks
      | Some once_complete =>
          returns (record_event self ev_once_guard p, goto at_acquire th)
      | None => blocks
      end
  | at_init =>
      match k with
      | C11_THREADS_AVAILABLE =>
          let p := init_mtx (platform c) (record_event self ev_construct p) in
          if defined (exit_status p)
          then returns (p, goto at_exit th)
          else returns (p, goto at_once_return th)
      | WIN32_CRITICAL_SECTION =>
          match InitCriticalSection (record_event self ev_construct p) with
          | returns p => returns (p, goto at_once_return th)
          | blocks => blocks
          | undefined_behaviour => undefined_behaviour
          end
      | _ => blocks
      end
  | at_once_return =>
      match once_of k (statics p) with
      | Some _ => returns (with_statics (set_once_of k once_complete) p, goto at_acquire th)
      | None => blocks
      end
  | at_acquire =>
      match acquire k self p with
      | returns (p, true) => returns (p, goto at_read th)
      | returns (p, false) => returns (p, goto at_spin_wait th)
      | blocks => blocks
      | undefined_behaviour => undefined_behaviour
      end
  | at_spin_wait =>
      if is_spin k
      then returns (record_event self (ev_spin_wait (SPIN_WAIT (spin_wait c))) p,
                    goto at_acquire th)
      else blocks
  | _ => blocks
  end.

(** ** One step of one thread

    [exec c p self th] runs thread [self], which stands at [pc th], for one
    atomic step in process [p]: the process and the thread afterwards, or
    that the thread cannot move now.  The caller's own points are the loop
    test, the load and the store of the increment; the rest is the header. *)
Definition exec (c : Config) (p : Process) (self : nat) (th : Thread)
  : outcome (Process * Thread) :=
  let k := primitive c in
  match pc th with
  | at_loop =>
      if (i th <? iterations c)%nat
      then returns (p, goto (lock_entry k) th)
      else returns (p, goto at_end th)
  | at_read =>
      returns (p, {| pc := at_write; i := i th; tmp := counter p |})
  | at_write =>
      returns (set_counter (tmp th + 1) p, goto at_release th)
  | at_release =>
      match global_lock_unlock k self p with
      | returns p => returns (p, {| pc := at_loop; i := S (i th); tmp := tmp th |})
      | blocks => blocks
      | undefined_behaviour => undefined_behaviour
      end
  | at_end | at_exit => blocks
  | _ => global_lock_lock c p self th
  end.

(** The scheduler picks thread [self]; [None] when it cannot move or the
    process is over. *)
Definition step (c : Config) (p : Process) (self : nat) : option Process :=
  if running p then
    match threads p !! self with
    | Some th =>
        match exec c p self th with
        | returns (p', th') => Some (set_threads (<[self := th']> (threads p)) p')
        | blocks => None
        | undefined_behaviour => Some (undefined_from_here p)
        end
    | None => None
    end
  else None.

(** A run follows a schedule, the list of the threads picked in turn. *)
Fixpoint run (c : Config) (schedule : list nat) (p : Process) : option Process :=
  match schedule with
  | [] => Some p
  | self :: rest =>
      match step c p self with
      | Some p' => run c rest p'
      | None => None
      end
  end.

Definition new_thread : Thread := {| pc := at_loop; i := 0; tmp := 0 |}.

(** The process at start-up with [n] threads about to enter their loop. *)
Definition start (c : Config) (n : nat) : Process :=
  {| statics := initial_statics (primitive c);
     counter := 0;
     stderr := [];
     exit_status := None;
     undefined := false;
     log := [];
     threads := replicate n new_thread |}.

Definition all_ended (p : Process) : bool :=
  forallb (fun th => bool_decide (pc th = at_end)) (threads p).

(** ** What the proofs observe of a process *)

(** The points between the acquiring call and the releasing call. *)
Definition critical (pt : Point) : bool :=
  match pt with
  | at_read | at_write | at_release => true
  | _ => false
  end.

(** The points behind the once-guard. *)
Definition past_guard (pt : Point) : bool :=
  match pt with
  | at_acquire | at_spin_wait | at_read | at_write | at_release => true
  | _ => false
  end.

(** The points inside the guarded callback. *)
Definition in_callback (pt : Point) : bool :=
  match pt with
  | at_init | at_once_return => true
  | _ => false
  end.

(** The points that exist in the build for primitive [k]. *)
Definition point_of_build (k : LockPrimitiveKind) (pt : Point) : bool :=
  match pt with
  | at_winver_check | at_winver_query => bool_decide (k = WIN32_CRITICAL_SECTION)
  | at_once | at_init | at_once_return => defined (once_of k (initial_statics k))
  | at_spin_wait => is_spin k
  | at_exit => bool_decide (k = C11_THREADS_AVAILABLE) || bool_decide (k = WIN32_CRITICAL_SECTION)
  | _ => true
  end.

Definition lock_free (k : LockPrimitiveKind) (s : Statics) : bool :=
  match k with
  | C11_THREADS_AVAILABLE | PTHREAD_AVAILABLE =>
      match global_lock_lock_mutex s with mtx_free => true | _ => false end
  | WIN32_CRITICAL_SECTION =>
      match global_lock_lock_cs s with cs_free => true | _ => false end
  | STDSTOMIC_AVAILABLE => negb (global_lock_lock_flag s)
  | GCC_ATOMIC_BUILTIN_AVAILABLE | GCC_SYNC_BUILTIN_AVAILABLE =>
      global_lock_lock_int s =? 0
  end.

(** The thread the operating system has on record as the holder. *)
Definition owner (k : LockPrimitiveKind) (s : Statics) : option nat :=
  match k with
  | C11_THREADS_AVAILABLE | PTHREAD_AVAILABLE =>
      match global_lock_lock_mutex s with mtx_held o => Some o | _ => None end
  | WIN32_CRITICAL_SECTION =>
      match global_lock_lock_cs s with cs_owned o _ => Some o | _ => None end
  | _ => None
  end.

(** The lock object has been constructed and not destroyed. *)
Definition usable (k : LockPrimitiveKind) (s : Statics) : bool :=
  match k with
  | C11_THREADS_AVAILABLE | PTHREAD_AVAILABLE =>
      match global_lock_lock_mutex s with mtx_free | mtx_held _ => true | _ => false end
  | WIN32_CRITICAL_SECTION =>
      match global_lock_lock_cs s with cs_free | cs_owned _ _ => true | _ => false end
  | _ => true
  end.

(** The lock object is storage no init call has touched. *)
Definition raw (k : LockPrimitiveKind) (s : Statics) : bool :=
  match k with
  | C11_THREADS_AVAILABLE =>
      match global_lock_lock_mutex s with mtx_raw => true | _ => false end
  | WIN32_CRITICAL_SECTION =>
      match global_lock_lock_cs s with cs_raw => true | _ => false end
  | _ => false
  end.

Fixpoint count_event (ev : Event) (l : list (nat * Event)) : nat :=
  match l with
  | [] => 0
  | (_, e) :: rest => (if bool_decide (e = ev) then 1 else 0) + count_event ev rest
  end.

(** How often the construction step was executed so far. *)
Definition constructions (p : Process) : nat := count_event ev_construct (log p).

(** The events of an initialisation step. *)
Definition init_event (ev : Event) : bool :=
  match ev with
  | ev_version_query | ev_once_guard | ev_construct => true
  | _ => false
  end.

(** The increments a thread has completed: its finished iterations and the
    one whose store is done but whose unlock is not. *)
Definition increments (th : Thread) : nat :=
  i th + (if bool_decide (pc th = at_release) then 1 else 0).

(** The platform lets the lock come up: [mtx_init] succeeds and Windows is
    Vista or later, where the build asks. *)
Definition healthy (c : Config) : bool :=
  match primitive c with
  | C11_THREADS_AVAILABLE =>
      match mtx_init_result (platform c) with thrd_success => true | _ => false end
  | WIN32_CRITICAL_SECTION => is_windows_vista_or_later (platform c)
  | _ => true
  end.

(** Nobody holds the lock and nobody is inside the once-guard. *)
Definition ready (k : LockPrimitiveKind) (s : Statics) : bool :=
  match k with
  | C11_THREADS_AVAILABLE =>
      match mtx_init_once s, global_lock_lock_mutex s with
      | ONCE_FLAG_INIT, mtx_raw | once_complete, mtx_free => true
      | _, _ => false
      end
  | PTHREAD_AVAILABLE =>
      match global_lock_lock_mutex s with mtx_free => true | _ => false end
  | WIN32_CRITICAL_SECTION =>
      match cs_init_once s, global_lock_lock_cs s with
      | ONCE_FLAG_INIT, cs_raw | once_complete, cs_free => true
      | _, _ => false
      end
  | STDSTOMIC_AVAILABLE => negb (global_lock_lock_flag s)
  | GCC_ATOMIC_BUILTIN_AVAILABLE | GCC_SYNC_BUILTIN_AVAILABLE =>
      (global_lock_lock_int s =? 0)%Z
  end.

(** ** The invariant of a run *)
Record Invariant (c : Config) (p : Process) : Prop := {
  inv_defined : undefined p = false;
  inv_points : ∀ t th, threads p !! t = Some th →
    point_of_build (primitive c) (pc th) = true;
  inv_bound : ∀ t th, threads p !! t = Some th →
    match pc th with
    | at_end => i th = iterations c
    | at_loop => i th ≤ iterations c
    | _ => i th < iterations c
    end%nat;
  inv_exclusive : ∀ t1 t2 th1 th2,
    threads p !! t1 = Some th1 → threads p !! t2 = Some th2 →
    critical (pc th1) = true → critical (pc th2) = true → t1 = t2;
  inv_free : ∀ t th, threads p !! t = Some th →
    lock_free (primitive c) (statics p) = true → critical (pc th) = false;
  inv_owner_in : ∀ t th, threads p !! t = Some th →
    critical (pc th) = true → is_spin (primitive c) = false →
    owner (primitive c) (statics p) = Some t;
  inv_owner_out : ∀ o, owner (primitive c) (statics p) = Some o →
    ∃ th, threads p !! o = Some th ∧ critical (pc th) = true;
  inv_recursion : ∀ o n, global_lock_lock_cs (statics p) = cs_owned o n → n = O;
  inv_counter : counter p = sum_list_with increments (threads p);
  inv_tmp : ∀ t th, threads p !! t = Some th →
    pc th = at_write → tmp th = counter p;
  inv_pthread : primitive c = PTHREAD_AVAILABLE →
    usable (primitive c) (statics p) = true;
  inv_init : ∀ t th, threads p !! t = Some th → pc th = at_init →
    once_of (primitive c) (statics p) = Some once_running
    ∧ raw (primitive c) (statics p) = true ∧ constructions p = O;
  inv_return : ∀ t th, threads p !! t = Some th → pc th = at_once_return →
    once_of (primitive c) (statics p) = Some once_running
    ∧ usable (primitive c) (statics p) = true ∧ constructions p = 1%nat;
  inv_callback : ∀ t1 t2 th1 th2,
    threads p !! t1 = Some th1 → threads p !! t2 = Some th2 →
    in_callback (pc th1) = true → in_callback (pc th2) = true → t1 = t2;
  inv_past : ∀ t th, threads p !! t = Some th → past_guard (pc th) = true →
    once_of (primitive c) (statics p) = None
    ∨ once_of (primitive c) (statics p) = Some once_complete;
  inv_done : ∀ t th, threads p !! t = Some th → (0 < i th)%nat →
    once_of (primitive c) (statics p) = None
    ∨ once_of (primitive c) (statics p) = Some once_complete;
  inv_complete : once_of (primitive c) (statics p) = Some once_complete →
    usable (primitive c) (statics p) = true ∧ constructions p = 1%nat;
  inv_fresh : once_of (primitive c) (statics p) = Some ONCE_FLAG_INIT →
    raw (primitive c) (statics p) = true ∧ constructions p = O;
  inv_once : (constructions p ≤ 1)%nat;
  inv_unguarded : once_of (primitive c) (statics p) = None →
    Forall (fun e => init_event (snd e) = false) (log p);
}.

(* ===================================================================== *)
(** * Part III: the statements of the specification                       *)
(* ===================================================================== *)

(** ** Strategy selection as the specification words it

    The six capability facts, each read off the macros the way the header
    probes it, and the choice by fixed priority among them. *)
Definition c11_threads_present (m : Macros) : bool :=
  defined (__STDC_VERSION__ m) && (value (__STDC_VERSION__ m) >=? 201112)
  && negb (__STDC_NO_THREADS__ m).

Definition posix_threads_present (m : Macros) : bool :=
  defined (_POSIX_THREADS m) && (value (_POSIX_THREADS m) >? 0).

Definition windows_api_present (m : Macros) : bool := _WIN32 m.

Definition c11_atomics_present (m : Macros) : bool :=
  defined (__STDC_VERSION__ m) && (value (__STDC_VERSION__ m) >=? 201112)
  && negb (__STDC_NO_ATOMICS__ m).

Definition gcc_atomic_exchange_present (m : Macros) : bool :=
  defined (__GNUC__ m)
  && match __has_builtin m with
     | Some has => has "__atomic_exchange_n"
     | None =>
         defined (__GNUC_MINOR__ m)
         && ((value (__GNUC__ m) >? 4)
             || ((value (__GNUC__ m) =? 4) && (value (__GNUC_MINOR__ m) >=? 7)))
     end.

Definition gcc_sync_present (m : Macros) : bool :=
  defined (__GNUC__ m)
  && match __has_builtin m with
     | Some has => has "__sync_lock_test_and_set"
     | None =>
         defined (__GNUC_MINOR__ m) && negb (__clang__ m)
         && ((value (__GNUC__ m) =? 4) && (value (__GNUC_MINOR__ m) >=? 1))
     end.

Definition by_priority (m : Macros) : option LockPrimitiveKind :=
  if c11_threads_present m then Some C11_THREADS_AVAILABLE
  else if posix_threads_present m then Some PTHREAD_AVAILABLE
  else if windows_api_present m then Some WIN32_CRITICAL_SECTION
  else if c11_atomics_present m then Some STDSTOMIC_AVAILABLE
  else if gcc_atomic_exchange_present m then Some GCC_ATOMIC_BUILTIN_AVAILABLE
  else if gcc_sync_present m then Some GCC_SYNC_BUILTIN_AVAILABLE
  else None.

(** The outcome [r] of preprocessing is the one the priority order asks
    for: the first available primitive, or a failed build when there is
    none. *)
Definition follows_priority (m : Macros) (r : cpp TranslationUnit) : Prop :=
  match by_priority m with
  | Some k => ∃ tu, r = cpp_ok tu ∧ tu_primitive tu = k
  | None => ∃ msg, r = cpp_error msg
  end.

(** The spin-wait body the secondary probe asks for. *)
Definition by_target (m : Macros) : SpinWaitKind :=
  if __x86_64__ m || __amd64__ m || _M_X64 m || __i386__ m || _M_IX86 m
  then mm_pause
  else if _POSIX_PRIORITY_SCHEDULING m then sched_yield
  else busy_loop.

(** What one [SPIN_WAIT()] executes as the specification words it: a pause
    instruction on x86 and x86-64, else a scheduler yield where POSIX
    priority scheduling is available, else 1000 barriers. *)
Definition wait_by_target (m : Macros) : list SpinAction :=
  if __x86_64__ m || __amd64__ m || _M_X64 m || __i386__ m || _M_IX86 m
  then [do_pause]
  else if _POSIX_PRIORITY_SCHEDULING m then [do_yield]
  else replicate 1000 do_barrier.

(** The translation unit defines [GLOBAL_LOCK_FUNC_SCOPE] as [scope]
    before it includes the header. *)
Definition with_scope (scope : option (list string)) (m : Macros) : Macros := {|
  GLOBAL_LOCK_FUNC_NAME_opt := GLOBAL_LOCK_FUNC_NAME_opt m;
  GLOBAL_UNLOCK_FUNC_NAME_opt := GLOBAL_UNLOCK_FUNC_NAME_opt m;
  GLOBAL_LOCK_FUNC_SCOPE_opt := scope;
  __STDC_VERSION__ := __STDC_VERSION__ m;
  __STDC_NO_THREADS__ := __STDC_NO_THREADS__ m;
  __STDC_NO_ATOMICS__ := __STDC_NO_ATOMICS__ m;
  _POSIX_THREADS := _POSIX_THREADS m;
  _POSIX_PRIORITY_SCHEDULING := _POSIX_PRIORITY_SCHEDULING m;
  _WIN32 := _WIN32 m;
  _WIN32_WINNT := _WIN32_WINNT m;
  __GNUC__ := __GNUC__ m;
  __GNUC_MINOR__ := __GNUC_MINOR__ m;
  __clang__ := __clang__ m;
  __has_builtin := __has_builtin m;
  __x86_64__ := __x86_64__ m;
  __amd64__ := __amd64__ m;
  _M_X64 := _M_X64 m;
  __i386__ := __i386__ m;
  _M_IX86 := _M_IX86 m;
|}.

(** ** Concrete environments, platforms and schedules *)

(** A C11 compiler for Windows, [_WIN32_WINNT] left to the SDK headers
    (which the header includes only at line 95). *)
Definition windows_c11 : Macros := {|
  GLOBAL_LOCK_FUNC_NAME_opt := None;
  GLOBAL_UNLOCK_FUNC_NAME_opt := None;
  GLOBAL_LOCK_FUNC_SCOPE_opt := None;
  __STDC_VERSION__ := Some 201112;
  __STDC_NO_THREADS__ := false;
  __STDC_NO_ATOMICS__ := false;
  _POSIX_THREADS := None;
  _POSIX_PRIORITY_SCHEDULING := false;
  _WIN32 := true;
  _WIN32_WINNT := None;
  __GNUC__ := None;
  __GNUC_MINOR__ := None;
  __clang__ := false;
  __has_builtin := None;
  __x86_64__ := false;
  __amd64__ := false;
  _M_X64 := true;
  __i386__ := false;
  _M_IX86 := false;
|}.

(** GCC 4.4 in C99 mode on a bare ARM target: only the legacy builtin. *)
Definition gcc44_arm : Macros := {|
  GLOBAL_LOCK_FUNC_NAME_opt := None;
  GLOBAL_UNLOCK_FUNC_NAME_opt := None;
  GLOBAL_LOCK_FUNC_SCOPE_opt := None;
  __STDC_VERSION__ := Some 199901;
  __STDC_NO_THREADS__ := false;
  __STDC_NO_ATOMICS__ := false;
  _POSIX_THREADS := None;
  _POSIX_PRIORITY_SCHEDULING := false;
  _WIN32 := false;
  _WIN32_WINNT := None;
  __GNUC__ := Some 4;
  __GNUC_MINOR__ := Some 4;
  __clang__ := false;
  __has_builtin := None;
  __x86_64__ := false;
  __amd64__ := false;
  _M_X64 := false;
  __i386__ := false;
  _M_IX86 := false;
|}.

(** GCC in C99 mode on Linux: POSIX threads are the first match. *)
Definition linux_c99 : Macros := {|
  GLOBAL_LOCK_FUNC_NAME_opt := None;
  GLOBAL_UNLOCK_FUNC_NAME_opt := None;
  GLOBAL_LOCK_FUNC_SCOPE_opt := None;
  __STDC_VERSION__ := Some 199901;
  __STDC_NO_THREADS__ := false;
  __STDC_NO_ATOMICS__ := false;
  _POSIX_THREADS := Some 200809;
  _POSIX_PRIORITY_SCHEDULING := true;
  _WIN32 := false;
  _WIN32_WINNT := None;
  __GNUC__ := Some 13;
  __GNUC_MINOR__ := Some 2;
  __clang__ := false;
  __has_builtin := Some (fun _ => true);
  __x86_64__ := true;
  __amd64__ := true;
  _M_X64 := false;
  __i386__ := false;
  _M_IX86 := false;
|}.

Definition linux : Platform := {|
  mtx_init_result := thrd_success;
  GetVersionEx := None;
  __FILE__ := "global_lock.h";
|}.

Definition windows_10 : Platform := {|
  mtx_init_result := thrd_success;
  GetVersionEx :=
    Some {| dwMajorVersion := 10; dwMinorVersion := 0; dwBuildNumber := 19045 |};
  __FILE__ := "global_lock.h";
|}.

Definition windows_xp : Platform := {|
  mtx_init_result := thrd_success;
  GetVersionEx :=
    Some {| dwMajorVersion := 5; dwMinorVersion := 1; dwBuildNumber := 2600 |};
  __FILE__ := "global_lock.h";
|}.

Definition out_of_memory : Platform := {|
  mtx_init_result := thrd_nomem;
  GetVersionEx := None;
  __FILE__ := "global_lock.h";
|}.

Definition config (k : LockPrimitiveKind) (pf : Platform) (n : nat) : Config :=
  {| primitive := k; spin_wait := mm_pause; platform := pf; iterations := n |}.

(** Thread 0 takes the lock; thread 1 tries three times in vain, spinning
    in between; thread 0 finishes its increment and releases; thread 1 gets
    through. *)
Definition contended : list nat :=
  [0; 0; 1; 1; 1; 1; 1; 1; 0; 0; 0; 1; 1; 1; 1; 1; 0; 1]%nat.

(** Thread 0 runs its only iteration alone, then thread 1 does. *)
Definition one_after_the_other (first second : nat) : list nat :=
  (replicate first 0%nat ++ replicate second 1%nat)%list.

(** Two threads on the legacy builtin: thread 0 has taken the flag and is
    about to increment, thread 1 is about to try. *)
Definition flag_taken : Process := {|
  statics := set_int 1 (initial_statics GCC_SYNC_BUILTIN_AVAILABLE);
  counter := 0;
  stderr := [];
  exit_status := None;
  undefined := false;
  log := [(0%nat, ev_test_and_set false)];
  threads := [ {| pc := at_read; i := 0; tmp := 0 |};
               {| pc := at_acquire; i := 0; tmp := 0 |} ];
|}.

(** The build of [gcc44_arm]: the legacy builtin with the busy loop. *)
Definition gcc44_arm_build : Config :=
  {| primitive := GCC_SYNC_BUILTIN_AVAILABLE; spin_wait := busy_loop;
     platform := linux; iterations := 1 |}.

(** Thread 0 takes the flag, thread 1 fails its first attempt. *)
Definition attempt_fails : list nat := [0; 0; 1; 1]%nat.

(** Where that leaves the two threads: thread 1 is about to spin-wait. *)
Definition spin_waiting : Process := {|
  statics := set_int 1 (initial_statics GCC_SYNC_BUILTIN_AVAILABLE);
  counter := 0;
  stderr := [];
  exit_status := None;
  undefined := false;
  log := [(1%nat, ev_test_and_set true); (0%nat, ev_test_and_set false)];
  threads := [ {| pc := at_read; i := 0; tmp := 0 |};
               {| pc := at_spin_wait; i := 0; tmp := 0 |} ];
|}.

(** [n] rounds of a failed attempt followed by its spin-wait. *)
Definition spinning (self n : nat) : list nat :=
  concat (replicate n [self; self]).

(** What such rounds leave in the log, newest first. *)
Definition spun (c : Config) (self n : nat) : list (nat * Event) :=
  concat (replicate n
    [(self, ev_spin_wait (SPIN_WAIT (spin_wait c))); (self, ev_test_and_set true)]).

(** ** Further observers of the header

    The branch hints of lines 57-63.  [LIKELY(x)] and [UNLIKELY(x)] are
    [__builtin_expect(!!(x), 1)] and [__builtin_expect(!!(x), 0)] under GCC
    and Clang and [(x)] elsewhere; [__builtin_expect] returns its first
    argument. *)
Definition logical_not (x : Z) : Z := if x =? 0 then 1 else 0.

Definition __builtin_expect (e expected : Z) : Z := e.

Definition LIKELY (m : Macros) (x : Z) : Z :=
  if defined (__GNUC__ m) then __builtin_expect (logical_not (logical_not x)) 1 else x.

Definition UNLIKELY (m : Macros) (x : Z) : Z :=
  if defined (__GNUC__ m) then __builtin_expect (logical_not (logical_not x)) 0 else x.

(** The branch an [if (x)] takes. *)
Definition taken (x : Z) : bool := negb (x =? 0).

(** The header's objects once the first call has gone through: the
    once-guard complete, the lock object constructed and free, the version
    check cached. *)
Definition initialised (k : LockPrimitiveKind) (s : Statics) : Statics :=
  match k with
  | C11_THREADS_AVAILABLE => set_mtx_init_once once_complete (set_mutex mtx_free s)
  | WIN32_CRITICAL_SECTION =>
      set_winver_checked true (set_cs_init_once once_complete (set_cs cs_free s))
  | _ => s
  end.

(** The lock object cannot be used any more and nobody is left inside the
    guarded callback. *)
Definition shut_down (k : LockPrimitiveKind) (p : Process) : Prop :=
  usable k (statics p) = false
  ∧ (once_of k (statics p) = None ∨ once_of k (statics p) = Some once_complete)
  ∧ ∀ t th, threads p !! t = Some th → in_callback (pc th) = false.

(** The lock is taken, as the lock object itself tells. *)
Definition held (k : LockPrimitiveKind) (s : Statics) : bool :=
  match k with
  | C11_THREADS_AVAILABLE | PTHREAD_AVAILABLE =>
      match global_lock_lock_mutex s with mtx_held _ => true | _ => false end
  | WIN32_CRITICAL_SECTION =>
      match global_lock_lock_cs s with cs_owned _ _ => true | _ => false end
  | STDSTOMIC_AVAILABLE => global_lock_lock_flag s
  | GCC_ATOMIC_BUILTIN_AVAILABLE | GCC_SYNC_BUILTIN_AVAILABLE =>
      negb (global_lock_lock_int s =? 0)
  end.

(** A thread that may still have to ask for the Windows version: it has
    not completed a call and stands at or before the query. *)
Definition may_query (th : Thread) : nat :=
  match i th, pc th with
  | O, (at_loop | at_winver_check | at_winver_query) => 1
  | _, _ => 0
  end.

Definition version_queries (p : Process) : nat :=
  count_event ev_version_query (log p).

(** The points behind the version check of lines 164-169. *)
Definition past_check (pt : Point) : bool :=
  match pt with
  | at_once | at_init | at_once_return | at_acquire | at_spin_wait
  | at_read | at_write | at_release => true
  | _ => false
  end.

(** The events only the spin builds produce, and the one only the blocking
    builds produce. *)
Definition spin_event (ev : Event) : bool :=
  match ev with
  | ev_test_and_set _ | ev_spin_wait _ => true
  | _ => false
  end.

Definition blocking_event (ev : Event) : bool :=
  match ev with
  | ev_acquire => true
  | _ => false
  end.

(** What every reachable process satisfies about its exit status, its
    diagnostics, the version check and the kind of events in its log. *)
Record Discipline (c : Config) (p : Process) : Prop := {
  dis_exit_code : exit_status p = None ∨ exit_status p = Some EXIT_FAILURE;
  dis_healthy : healthy c = true → exit_status p = None;
  dis_stderr : stderr p = []
    ∨ (primitive c = C11_THREADS_AVAILABLE
       ∧ mtx_init_result (platform c) ≠ thrd_success
       ∧ stderr p = [init_mtx_message (platform c)]
       ∧ exit_status p = Some EXIT_FAILURE);
  dis_static : once_of (primitive c) (statics p) = None → exit_status p = None;
  dis_exit_point : ∀ t th, threads p !! t = Some th → pc th = at_exit →
    exit_status p = Some EXIT_FAILURE;
  dis_blocking : is_spin (primitive c) = false →
    Forall (fun e => spin_event (snd e) = false) (log p);
  dis_spinning : is_spin (primitive c) = true →
    Forall (fun e => blocking_event (snd e) = false) (log p);
  dis_callback : exit_status p = None →
    once_of (primitive c) (statics p) = Some once_running →
    ∃ t th, threads p !! t = Some th ∧ in_callback (pc th) = true;
  dis_checked : ∀ t th, threads p !! t = Some th →
    primitive c = WIN32_CRITICAL_SECTION → past_check (pc th) = true →
    winver_checked (statics p) = true;
  dis_checked_later : ∀ t th, threads p !! t = Some th →
    primitive c = WIN32_CRITICAL_SECTION → (0 < i th)%nat →
    winver_checked (statics p) = true;
  dis_query_fresh : ∀ t th, threads p !! t = Some th →
    pc th = at_winver_query → i th = O;
  dis_no_query : primitive c ≠ WIN32_CRITICAL_SECTION → version_queries p = O;
  dis_queries :
    (version_queries p + sum_list_with may_query (threads p) ≤ length (threads p))%nat;
}.

(** On a spin build a taken flag has a thread inside the critical
    section. *)
Definition flag_has_holder (c : Config) (p : Process) : Prop :=
  is_spin (primitive c) = true →
  lock_free (primitive c) (statics p) = false →
  ∃ t th, threads p !! t = Some th ∧ critical (pc th) = true.

(** The successful acquisitions and the releases so far, as the log has
    them: an acquisition is a blocking acquire that returned or an exchange
    that found the flag clear. *)
Definition acquisitions (p : Process) : nat :=
  (count_event ev_acquire (log p) + count_event (ev_test_and_set false) (log p))%nat.

Definition releases (p : Process) : nat := count_event ev_release (log p).

(** Acquisitions and releases alternate, and every completed call of the
    caller's loop has released once. *)
Definition Balanced (c : Config) (p : Process) : Prop :=
  acquisitions p
  = (releases p + (if held (primitive c) (statics p) then 1 else 0))%nat
  ∧ releases p = sum_list_with i (threads p).

(** What a thread that is neither inside the critical section nor inside
    the guarded callback needs to get through its call on its own. *)
Definition waiting (c : Config) (p : Process) (th : Thread) : Prop :=
  match pc th with
  | at_loop => (i th ≤ iterations c)%nat
  | at_end => True
  | at_winver_check | at_winver_query =>
      primitive c = WIN32_CRITICAL_SECTION ∧ (i th < iterations c)%nat
  | at_once =>
      once_of (primitive c) (statics p) ≠ None ∧ (i th < iterations c)%nat
  | at_acquire =>
      (once_of (primitive c) (statics p) = None
       ∨ once_of (primitive c) (statics p) = Some once_complete)
      ∧ (i th < iterations c)%nat
  | at_spin_wait => is_spin (primitive c) = true ∧ (i th < iterations c)%nat
  | _ => False
  end.

(** MSVC in its default C mode, targeting Windows 10: neither C11 threads
    nor POSIX threads, the Windows API is the first match. *)
Definition windows_msvc : Macros := {|
  GLOBAL_LOCK_FUNC_NAME_opt := None;
  GLOBAL_UNLOCK_FUNC_NAME_opt := None;
  GLOBAL_LOCK_FUNC_SCOPE_opt := None;
  __STDC_VERSION__ := None;
  __STDC_NO_THREADS__ := false;
  __STDC_NO_ATOMICS__ := false;
  _POSIX_THREADS := None;
  _POSIX_PRIORITY_SCHEDULING := false;
  _WIN32 := true;
  _WIN32_WINNT := Some 0x0A00;
  __GNUC__ := None;
  __GNUC_MINOR__ := None;
  __clang__ := false;
  __has_builtin := None;
  __x86_64__ := false;
  __amd64__ := false;
  _M_X64 := true;
  __i386__ := false;
  _M_IX86 := false;
|}.

(** Thread 0 takes the lock and thread 1 arrives at the acquiring call. *)
Definition lock_taken : list nat := [0; 0; 1]%nat.

(** Two threads both pass the version check before either has asked. *)
Definition both_ask : list nat := [0; 0; 1; 1; 0; 1]%nat.

(** Thread 0 walks into [init_mtx]. *)
Definition into_init : list nat := [0; 0; 0]%nat.

(* ===================================================================== *)
(** * Part IV: proofs                                                     *)
(* ===================================================================== *)

(** ** The preprocessor program *)

Lemma gcc_builtin_probe_priority m :
  defined (__GNUC__ m) = true →
  gcc_builtin_probe m =
    if gcc_atomic_exchange_present m then Some GCC_ATOMIC_BUILTIN_AVAILABLE
    else if gcc_sync_present m then Some GCC_SYNC_BUILTIN_AVAILABLE
    else None.
Proof.
  intros G. unfold gcc_builtin_probe, gcc_atomic_exchange_present, gcc_sync_present.
  rewrite G. simpl. destruct (__has_builtin m) as [has|].
  - destruct (has "__atomic_exchange_n"), (has "__sync_lock_test_and_set"); reflexivity.
  - destruct (defined (__GNUC_MINOR__ m)); simpl; [|reflexivity].
    destruct (_ || _); [reflexivity|].
    destruct (negb (__clang__ m) && _); reflexivity.
Qed.

Lemma select_primitive_priority m :
  select_primitive m =
    match by_priority m with
    | Some k => cpp_ok k
    | None => cpp_error no_mechanism_message
    end.
Proof.
  unfold select_primitive, by_priority, c11_threads_present, posix_threads_present,
    windows_api_present, c11_atomics_present.
  destruct (defined (__STDC_VERSION__ m) && _ && negb (__STDC_NO_THREADS__ m)); [reflexivity|].
  destruct (defined (_POSIX_THREADS m) && _); [reflexivity|].
  destruct (_WIN32 m); [reflexivity|].
  destruct (defined (__STDC_VERSION__ m) && _ && negb (__STDC_NO_ATOMICS__ m)); [reflexivity|].
  destruct (defined (__GNUC__ m)) eqn:G.
  - rewrite (gcc_builtin_probe_priority m G).
    destruct (gcc_atomic_exchange_present m); [reflexivity|].
    destruct (gcc_sync_present m); reflexivity.
  - unfold gcc_atomic_exchange_present, gcc_sync_present. rewrite G. reflexivity.
Qed.



Lemma spin_primitive_not_windows m k :
  select_primitive m = cpp_ok k → is_spin k = true →
  _WIN32 m = false ∧ k ≠ C11_THREADS_AVAILABLE ∧ k ≠ PTHREAD_AVAILABLE.
Proof.
  unfold select_primitive. intros S Hk.
  repeat case_match; simplify_eq/=; try done; repeat split; try done.
  all: intros ->; discriminate Hk.
Qed.

Lemma SPIN_WAIT_macro_spin m k :
  select_primitive m = cpp_ok k → is_spin k = true →
  SPIN_WAIT_macro m k = Some (by_target m).
Proof.
  intros S Hk. destruct (spin_primitive_not_windows m k S Hk) as (W & N1 & N2).
  unfold SPIN_WAIT_macro, by_target. rewrite W.
  rewrite !bool_decide_eq_false_2 by done. simpl.
  repeat case_match; reflexivity.
Qed.

Lemma preprocess_with_scope scope m tu :
  preprocess m = cpp_ok tu →
  preprocess (with_scope scope m) =
    cpp_ok {| tu_primitive := tu_primitive tu;
              tu_spin_wait := tu_spin_wait tu;
              tu_lock := lock_declarator (with_scope scope m);
              tu_unlock := unlock_declarator (with_scope scope m) |}.
Proof.
  unfold preprocess, winnt_gate, select_primitive, gcc_builtin_probe, SPIN_WAIT_macro. simpl.
  destruct (_WIN32 m && _); simpl; [done|].
  repeat case_match; intros; simplify_eq/=; try done.
Qed.

(** C10. The header does not check [GLOBAL_LOCK_FUNC_SCOPE], against its
    own comment on line 34: if it preprocesses at all, it does so for every
    value of the macro, reaches no [#error], selects the same primitive and
    pastes the value unchanged in front of [void] in the headers of the
    lock and the unlock function. *)
Theorem scope_is_not_validated m tu scope :
  preprocess m = cpp_ok tu →
  preprocess (with_scope (Some scope) m)
  = cpp_ok {| tu_primitive := tu_primitive tu;
              tu_spin_wait := tu_spin_wait tu;
              tu_lock := (scope ++ ["void"; GLOBAL_LOCK_FUNC_NAME m; "("; "void"; ")"])%list;
              tu_unlock := (scope ++ ["void"; GLOBAL_UNLOCK_FUNC_NAME m; "("; "void"; ")"])%list |}.
Proof. intros P. by rewrite (preprocess_with_scope _ _ _ P). Qed.

Lemma scope_is_not_validated_witness :
  ∃ tu, preprocess linux_c99 = cpp_ok tu
  ∧ ["extern"] ≠ ["static"] ∧ ["extern"] ≠ ([] : list string)
  ∧ preprocess (with_scope (Some ["extern"]) linux_c99)
    = cpp_ok {| tu_primitive := PTHREAD_AVAILABLE;
                tu_spin_wait := None;
                tu_lock := ["extern"; "void"; "global_lock_lock"; "("; "void"; ")"];
                tu_unlock := ["extern"; "void"; "global_lock_unlock"; "("; "void"; ")"] |}.
Proof.
  exists {| tu_primitive := PTHREAD_AVAILABLE;
            tu_spin_wait := None;
            tu_lock := ["void"; "global_lock_lock"; "("; "void"; ")"];
            tu_unlock := ["void"; "global_lock_unlock"; "("; "void"; ")"] |}.
  split; [reflexivity|]. split; [discriminate|]. split; [discriminate|].
  apply (scope_is_not_validated linux_c99
           {| tu_primitive := PTHREAD_AVAILABLE;
              tu_spin_wait := None;
              tu_lock := ["void"; "global_lock_lock"; "("; "void"; ")"];
              tu_unlock := ["void"; "global_lock_unlock"; "("; "void"; ")"] |}
           ["extern"]).
  reflexivity.
Defined.

(** ** The invariant is kept by every step *)

#[local] Set Warnings "-clear-no-such-hyp".

Lemma sum_list_with_insert {A} (f : A → nat) (l : list A) (t : nat) (x y : A) :
  l !! t = Some x →
  (sum_list_with f (<[t:=y]> l) + f x = sum_list_with f l + f y)%nat.
Proof.
  revert t. induction l as [|a l IH]; intros [|t] H; simplify_eq/=; try lia.
  specialize (IH t H). lia.
Qed.

Lemma step_cases c p t p' :
  step c p t = Some p' →
  running p = true ∧
  ∃ th, threads p !! t = Some th ∧
    ((∃ q th', exec c p t th = returns (q, th')
               ∧ p' = set_threads (<[t:=th']> (threads p)) q)
     ∨ (exec c p t th = undefined_behaviour ∧ p' = undefined_from_here p)).
Proof.
  unfold step. destruct (running p); [|done].
  destruct (threads p !! t) as [th|]; [|done].
  destruct (exec c p t th) as [[q th']| |] eqn:E; intros; simplify_eq; eauto 10.
Qed.

(** The invariant, read at the thread that makes the step. *)
Ltac use_invariant I t th Hth :=
  pose proof (inv_defined _ _ I);
  pose proof (inv_points _ _ I t th Hth);
  pose proof (inv_bound _ _ I t th Hth);
  pose proof (inv_free _ _ I t th Hth);
  pose proof (inv_owner_in _ _ I t th Hth);
  pose proof (inv_owner_out _ _ I);
  pose proof (inv_recursion _ _ I);
  pose proof (inv_tmp _ _ I t th Hth);
  pose proof (inv_pthread _ _ I);
  pose proof (inv_init _ _ I t th Hth);
  pose proof (inv_return _ _ I t th Hth);
  pose proof (inv_past _ _ I t th Hth);
  pose proof (inv_done _ _ I t th Hth);
  pose proof (inv_complete _ _ I);
  pose proof (inv_fresh _ _ I);
  pose proof (inv_once _ _ I);
  pose proof (inv_unguarded _ _ I).

(** Forward reasoning on the hypotheses: modus ponens, rewriting with the
    known values of the header's objects and of the point a thread stands
    at, and closing the contradictory cases. *)
Ltac tidy :=
  repeat match goal with
  | H : ?x = ?x → _ |- _ => specialize (H eq_refl)
  | H : ?P → _, H' : ?P |- _ =>
      match type of P with Prop => specialize (H H') end
  | H : ?f (statics ?p) = _ |- context [?f (statics ?p)] => rewrite H
  | H : ∀ o, Some ?a = Some o → _ |- _ => specialize (H a eq_refl)
  | H : ∀ o n, ?f ?a ?b = ?f o n → _ |- _ => specialize (H a b eq_refl)
  | H : _ ∧ _ |- _ => destruct H
  | H : Some _ = Some _ |- _ => apply (inj Some) in H
  | H : Some _ = None |- _ => discriminate H
  | H : (_ <? _)%nat = true |- _ => apply Nat.ltb_lt in H
  | H : (_ <? _)%nat = false |- _ => apply Nat.ltb_ge in H
  | H : negb _ = true |- _ => apply negb_true_iff in H
  | H : negb _ = false |- _ => apply negb_false_iff in H
  | H : false = true |- _ => discriminate H
  | H : true = false |- _ => discriminate H
  | H : pc ?th = _, H' : context [pc ?th] |- _ => rewrite H in H'; simpl in H' 
  | H : None = Some _ |- _ => discriminate H
  | H : ?f (statics ?p) = _, H' : context [?f (statics ?p)] |- _ => rewrite H in H'
  | H : ∃ _, _ |- _ => destruct H
  | H : _ ∨ _ |- _ => destruct H
  | H : ?a = ?b → _ |- _ => first [ is_var a; fail 1 | is_var b; fail 1
                                  | (assert (a ≠ b) by discriminate); clear H ]
  end.

(** One case for each path through the step function. *)
Ltac split_cases :=
  repeat first [ case_bool_decide | case_match ]; simplify_eq/=.

Lemma exec_defined c p t th :
  Invariant c p → threads p !! t = Some th →
  exec c p t th ≠ undefined_behaviour.
Proof.
  intros I Hth E. use_invariant I t th Hth.
  unfold exec, global_lock_lock, acquire, global_lock_unlock, InitCriticalSection in E.
  destruct (pc th) eqn:Hpc, (primitive c) eqn:Hk; simpl in *;
    unfold usable, raw, owner, once_of in *; rewrite ?Hk in *; simpl in *.
  all: split_cases; tidy; split_cases; tidy; try done; try congruence.
Qed.

(** The invariant, read at another thread [t0], and what it says about the
    pair of [t0] and the stepping thread [t]. *)
Ltac other_thread I t t0 th0 Hl0 :=
  pose proof (inv_points _ _ I t0 th0 Hl0);
  pose proof (inv_bound _ _ I t0 th0 Hl0);
  pose proof (inv_free _ _ I t0 th0 Hl0);
  pose proof (inv_owner_in _ _ I t0 th0 Hl0);
  pose proof (inv_tmp _ _ I t0 th0 Hl0);
  pose proof (inv_init _ _ I t0 th0 Hl0);
  pose proof (inv_return _ _ I t0 th0 Hl0);
  pose proof (inv_past _ _ I t0 th0 Hl0);
  pose proof (inv_done _ _ I t0 th0 Hl0);
  match goal with
  | Hth : threads _ !! t = Some ?th |- _ =>
      pose proof (inv_exclusive _ _ I t t0 th th0 Hth Hl0);
      pose proof (inv_callback _ _ I t t0 th th0 Hth Hl0)
  end.

Ltac unfold_observers :=
  unfold usable, raw, owner, once_of, lock_free, constructions in *;
  repeat match goal with
  | Hk : primitive ?c = _ |- _ => rewrite !Hk in *
  | Hk : primitive ?c = _, H : context [primitive ?c] |- _ => rewrite !Hk in H
  end;
  simpl in *.

Ltac finish := first [ done | congruence | lia ].

Ltac close :=
  intros; unfold_observers; tidy;
  try match goal with |- ?b = false => destruct b eqn:?; tidy end;
  repeat split; try finish;
  try (left; finish); try (right; finish).

(** A thread read after the step is the stepping thread or an untouched
    one. *)
Ltac split_lookup H t0 :=
  let Hne := fresh "Hne" in
  apply list_lookup_insert_Some in H as [(<- & <- & _)|(Hne & H)].

(** The fields of the invariant, by their shape: about every thread, about
    every pair of threads, about the holder, about the counter, about the
    log. *)
Ltac per_thread I t :=
  let t0 := fresh "t0" in let th0 := fresh "th0" in let Hl0 := fresh "Hl0" in
  intros t0 th0 Hl0; split_lookup Hl0 t0;
  [ intros; close
  | other_thread I t t0 th0 Hl0; intros; close ].

Ltac pairwise I t old :=
  let t1 := fresh "t1" in let t2 := fresh "t2" in
  let th1 := fresh "th1" in let th2 := fresh "th2" in
  let Hl1 := fresh "Hl1" in let Hl2 := fresh "Hl2" in
  intros t1 t2 th1 th2 Hl1 Hl2; split_lookup Hl1 t1; split_lookup Hl2 t2;
  [ done
  | other_thread I t t2 th2 Hl2; intros; exfalso;
    first [ by close | destruct (pc th2) eqn:?; by close ]
  | other_thread I t t1 th1 Hl1; intros; exfalso;
    first [ by close | destruct (pc th1) eqn:?; by close ]
  | exact (old t1 t2 th1 th2 Hl1 Hl2) ].

Ltac owner_out t :=
  let o := fresh "o" in let Ho := fresh "Ho" in
  intros o Ho; unfold_observers; tidy;
  (destruct (decide (o = t)) as [->|];
   [ simplify_eq; tidy;
     (eexists; rewrite list_lookup_insert_eq by done; (split; [reflexivity|close]))
   | simplify_eq; tidy;
     (eexists; rewrite list_lookup_insert_ne by done; (split; [eassumption|close])) ]).

Ltac counter_field :=
  unfold increments in *; simpl in *;
  repeat match goal with
  | H : pc ?th = _, H' : context [pc ?th] |- _ => rewrite H in H'; simpl in H'
  end;
  repeat case_bool_decide; try done; tidy; lia.

Ltac unguarded_field :=
  intros; unfold_observers; tidy;
  first [ assumption | constructor; [done | assumption] ].

Lemma Invariant_exec c p t th q th' :
  Invariant c p → threads p !! t = Some th →
  exec c p t th = returns (q, th') →
  Invariant c (set_threads (<[t:=th']> (threads p)) q).
Proof.
  intros I Hth E. use_invariant I t th Hth.
  pose proof (sum_list_with_insert increments _ t th th' Hth) as Hsum.
  pose proof (inv_counter _ _ I) as Hcnt.
  pose proof (lookup_lt_Some _ _ _ Hth) as Hlen.
  unfold exec, global_lock_lock, acquire, global_lock_unlock, InitCriticalSection, init_mtx, mtx_init in E.
  destruct (pc th) eqn:Hpc, (primitive c) eqn:Hk; simpl in *;
    unfold usable, raw, owner, once_of, lock_free, constructions in *; rewrite ?Hk in *; simpl in *.
  all: split_cases; tidy; split_cases; tidy.
  all: split; unfold usable, raw, owner, once_of, lock_free, constructions; rewrite ?Hk; simpl.
  all: try done.
  all: try lazymatch goal with
       | |- ∀ t0 th0, _ !! t0 = Some th0 → _ => per_thread I t
       | |- ∀ t1 t2 th1 th2, _ → _ → critical _ = true → _ =>
           pairwise I t (inv_exclusive _ _ I)
       | |- ∀ t1 t2 th1 th2, _ → _ → in_callback _ = true → _ =>
           pairwise I t (inv_callback _ _ I)
       | |- ∀ o, _ → ∃ _, _ => owner_out t
       | |- _ = sum_list_with _ _ => counter_field
       | |- _ → Forall _ _ => unguarded_field
       | |- _ => by close
       end.
Qed.

Lemma Invariant_start c n : Invariant c (start c n).
Proof.
  split; simpl.
  all: try (intros ? ? [-> ?]%lookup_replicate; simpl; first [done | lia]).
  all: try (intros ? ? ? ? [-> ?]%lookup_replicate [-> ?]%lookup_replicate; simpl; done).
  all: try (destruct (primitive c); simpl; done).
  - induction n; simpl; auto.
  - unfold constructions; simpl; lia.
Qed.

Lemma Invariant_step c p t p' :
  Invariant c p → step c p t = Some p' → Invariant c p'.
Proof.
  intros I (_ & th & Hth & [(q & th' & E & ->)|(E & _)])%step_cases.
  - by eapply Invariant_exec.
  - by destruct (exec_defined c p t th I Hth).
Qed.

Lemma Invariant_run c schedule : ∀ p p',
  Invariant c p → run c schedule p = Some p' → Invariant c p'.
Proof.
  induction schedule as [|t rest IH]; intros p p' I R; simpl in R.
  - by simplify_eq.
  - destruct (step c p t) as [p1|] eqn:S; [|done].
    eapply IH; [|exact R]. by eapply Invariant_step.
Qed.

Lemma step_length c p t p' :
  step c p t = Some p' → length (threads p') = length (threads p).
Proof.
  intros (_ & th & Hth & [(q & th' & E & ->)|(E & ->)])%step_cases; simpl.
  - by rewrite length_insert.
  - done.
Qed.

Lemma run_length c schedule : ∀ p p',
  run c schedule p = Some p' → length (threads p') = length (threads p).
Proof.
  induction schedule as [|t rest IH]; intros p p' R; simpl in R.
  - by simplify_eq.
  - destruct (step c p t) as [p1|] eqn:S; [|done].
    rewrite (IH _ _ R). by eapply step_length.
Qed.

Lemma reachable_invariant c n schedule p :
  run c schedule (start c n) = Some p → Invariant c p.
Proof. apply Invariant_run, Invariant_start. Qed.

Lemma ended_increments c p :
  Invariant c p → all_ended p = true →
  sum_list_with increments (threads p) = (length (threads p) * iterations c)%nat.
Proof.
  intros I E. unfold all_ended in E. rewrite forallb_forall in E.
  assert (∀ th, th ∈ threads p → increments th = iterations c) as Hall.
  { intros th Hin. pose proof (E th (proj1 (list_elem_of_In _ _) Hin)) as Hend.
    apply bool_decide_eq_true in Hend.
    apply list_elem_of_lookup in Hin as [t Ht].
    pose proof (inv_bound _ _ I t th Ht) as Hb. rewrite Hend in Hb.
    unfold increments. rewrite Hend. simpl. lia. }
  clear E. induction (threads p) as [|th ths IH]; simpl; [done|].
  rewrite Hall by left. rewrite IH; [lia|]. intros; apply Hall. by right.
Qed.

(** ** The claims about the run-time program *)

(** ** Every run can finish

    A thread that finds the lock free and the once-guard at rest gets
    through one iteration on its own, whatever the primitive. *)

Lemma run_cons c t rest p p1 q :
  step c p t = Some p1 → run c rest p1 = Some q → run c (t :: rest) p = Some q.
Proof. intros S R. simpl. by rewrite S. Qed.

Lemma run_app c s1 : ∀ s2 p p1 q,
  run c s1 p = Some p1 → run c s2 p1 = Some q → run c (s1 ++ s2)%list p = Some q.
Proof.
  induction s1 as [|t s1 IH]; intros s2 p p1 q R1 R2; simpl in *.
  - by simplify_eq.
  - destruct (step c p t); [|done]. by eapply IH.
Qed.

Lemma step_at c p t th q th' :
  running p = true → threads p !! t = Some th →
  exec c p t th = returns (q, th') →
  step c p t = Some (set_threads (<[t:=th']> (threads p)) q).
Proof. intros R L E. unfold step. by rewrite R, L, E. Qed.

Lemma run_nil c p : run c [] p = Some p.
Proof. reflexivity. Qed.

Ltac normalize :=
  cbv [set_threads set_counter record_event with_statics fprintf_stderr
       undefined_from_here goto set_mutex set_mtx_init_once set_cs_init_once
       set_cs set_winver_checked set_flag set_int set_once_of
       statics counter stderr exit_status undefined log threads pc i tmp
       global_lock_lock_mutex mtx_init_once cs_init_once global_lock_lock_cs
       winver_checked global_lock_lock_flag global_lock_lock_int].

(** One more step of the thread, evaluated on the symbolic process. *)
Ltac advance Hk :=
  eapply run_cons;
  [ eapply step_at;
    [ reflexivity
    | first [ eassumption | simpl; apply list_lookup_insert_eq; by rewrite ?length_insert ]
    | unfold exec, global_lock_lock, init_mtx, mtx_init; rewrite Hk; simpl;
      try match goal with H : (_ <? _)%nat = true |- _ => rewrite H end;
      try match goal with H : mtx_init_result _ = _ |- _ => rewrite H end;
      try match goal with H : is_windows_vista_or_later _ = true |- _ => rewrite H end;
      rewrite ?bool_decide_eq_true_2 by done;
      simpl; reflexivity ]
  | normalize ].

Ltac iterate Hk :=
  eexists; eexists; split;
  [ repeat advance Hk; apply run_nil
  | normalize; rewrite ?list_insert_insert_eq; split_and!; reflexivity ].

Lemma one_iteration c p t th :
  healthy c = true → running p = true →
  ready (primitive c) (statics p) = true →
  threads p !! t = Some th → pc th = at_loop → (i th < iterations c)%nat →
  ∃ schedule q, run c schedule p = Some q
  ∧ running q = true ∧ ready (primitive c) (statics q) = true
  ∧ threads q = <[t := {| pc := at_loop; i := S (i th); tmp := counter p |}]> (threads p).
Proof.
  intros Hc Hrun Hready Hth Hpc Hlt.
  pose proof (lookup_lt_Some _ _ _ Hth) as Hlen.
  apply Nat.ltb_lt in Hlt.
  destruct th as [pt j x]. simpl in Hpc, Hlt. subst pt.
  destruct p as [[mx o1 o2 cs wv fl n] cnt err ex ud lg ths].
  unfold running, healthy in *. simpl in *.
  destruct ex; [done|]. destruct ud; [done|]. clear Hrun.
  destruct (primitive c) eqn:Hk; simpl in *.
  - destruct (mtx_init_result (platform c)) eqn:Hinit; try done.
    destruct o1, mx; try done; iterate Hk.
  - destruct mx; try done; iterate Hk.
  - destruct o2, cs, wv; try done; iterate Hk.
  - destruct fl; try done; iterate Hk.
  - destruct (n =? 0)%Z eqn:Hn; try done. apply Z.eqb_eq in Hn. subst n. iterate Hk.
  - destruct (n =? 0)%Z eqn:Hn; try done. apply Z.eqb_eq in Hn. subst n. iterate Hk.
Qed.

Lemma finish_thread c : ∀ d p t th,
  healthy c = true → running p = true →
  ready (primitive c) (statics p) = true →
  threads p !! t = Some th → pc th = at_loop →
  (i th + d = iterations c)%nat →
  ∃ schedule q th', run c schedule p = Some q
  ∧ running q = true ∧ ready (primitive c) (statics q) = true
  ∧ threads q = <[t := th']> (threads p) ∧ pc th' = at_end.
Proof.
  induction d as [|d IH]; intros p t th Hc Hrun Hready Hth Hpc Hd.
  - exists [t], (set_threads (<[t := goto at_end th]> (threads p)) p), (goto at_end th).
    split_and!; try done.
    eapply run_cons; [|apply run_nil]. eapply step_at; [done..|].
    unfold exec. rewrite Hpc.
    replace (i th <? iterations c)%nat with false; [done|].
    symmetry. apply Nat.ltb_ge. lia.
  - destruct (one_iteration c p t th Hc Hrun Hready Hth Hpc) as (s1 & q1 & R1 & Hrun1 & Hready1 & T1);
      [lia|].
    assert (threads q1 !! t = Some {| pc := at_loop; i := S (i th); tmp := counter p |}) as Hth1.
    { rewrite T1. apply list_lookup_insert_eq. by eapply lookup_lt_Some. }
    destruct (IH q1 t _ Hc Hrun1 Hready1 Hth1 eq_refl) as (s2 & q & th' & R2 & ? & ? & T2 & ?);
      [simpl; lia|].
    exists (s1 ++ s2)%list, q, th'. split_and!; try done.
    + by eapply run_app.
    + by rewrite T2, T1, list_insert_insert_eq.
Qed.

Lemma finish_from c : ∀ k a p,
  healthy c = true → running p = true →
  ready (primitive c) (statics p) = true →
  (a + k = length (threads p))%nat →
  (∀ t th, threads p !! t = Some th → (t < a)%nat → pc th = at_end) →
  (∀ t th, threads p !! t = Some th → (a ≤ t)%nat →
     pc th = at_loop ∧ (i th ≤ iterations c)%nat) →
  ∃ schedule q, run c schedule p = Some q ∧ all_ended q = true.
Proof.
  induction k as [|k IH]; intros a p Hc Hrun Hready Hlen Hdone Htodo.
  - exists [], p. split; [done|]. unfold all_ended. apply forallb_forall.
    intros th [t Hth]%list_elem_of_In%list_elem_of_lookup.
    apply bool_decide_eq_true_2, (Hdone t th Hth).
    apply lookup_lt_Some in Hth. lia.
  - destruct (lookup_lt_is_Some_2 (threads p) a) as [th Hth]; [lia|].
    destruct (Htodo a th Hth) as [Hpc Hi]; [lia|].
    destruct (finish_thread c (iterations c - i th) p a th Hc Hrun Hready Hth Hpc)
      as (s1 & q1 & th' & R1 & Hrun1 & Hready1 & T1 & Hend); [lia|].
    destruct (IH (S a) q1 Hc Hrun1 Hready1) as (s2 & q & R2 & E).
    + rewrite T1, length_insert. lia.
    + intros t th0. rewrite T1. intros [(<- & <- & _)|(Hne & Hl)]%list_lookup_insert_Some Ht.
      * done.
      * eapply Hdone; [done|lia].
    + intros t th0. rewrite T1. intros [(<- & <- & _)|(Hne & Hl)]%list_lookup_insert_Some Ht.
      * lia.
      * eapply Htodo; [done|lia].
    + exists (s1 ++ s2)%list, q. split; [by eapply run_app|done].
Qed.

Lemma every_run_can_finish c n :
  healthy c = true →
  ∃ schedule p, run c schedule (start c n) = Some p ∧ all_ended p = true.
Proof.
  intros Hc. apply (finish_from c n 0 (start c n) Hc).
  - done.
  - simpl. by destruct (primitive c).
  - simpl. by rewrite length_replicate.
  - intros; lia.
  - intros t th [-> _]%lookup_replicate _. simpl. split; [done|lia].
Qed.

(** C1. Mutual exclusion: whatever the primitive, the platform, the number
    [n] of threads, the bound [N] of their loops and the interleaving, no
    run meets undefined behaviour, no two threads are between lock and
    unlock at once, and when all threads have left their loop of lock,
    increment, unlock, the counter is exactly [n * N]; and on a platform
    that lets the lock come up, the threads can all get there. *)
Theorem mutual_exclusion_counter c n :
  (healthy c = true →
   ∃ schedule p, run c schedule (start c n) = Some p ∧ all_ended p = true)
  ∧ (∀ schedule p, run c schedule (start c n) = Some p →
       undefined p = false
       ∧ (∀ t1 t2 th1 th2,
            threads p !! t1 = Some th1 → threads p !! t2 = Some th2 →
            critical (pc th1) = true → critical (pc th2) = true → t1 = t2)
       ∧ (all_ended p = true → counter p = (n * iterations c)%nat)).
Proof.
  split; [apply every_run_can_finish|].
  intros schedule p R. pose proof (reachable_invariant _ _ _ _ R) as I.
  split; [apply (inv_defined _ _ I)|]. split; [apply (inv_exclusive _ _ I)|].
  intros E. rewrite (inv_counter _ _ I), (ended_increments c p I E).
  rewrite (run_length _ _ _ _ R). simpl. by rewrite length_replicate.
Qed.

Lemma mutual_exclusion_counter_witness :
  ∃ p, run (config STDSTOMIC_AVAILABLE linux 1) contended
           (start (config STDSTOMIC_AVAILABLE linux 1) 2) = Some p
  ∧ all_ended p = true ∧ counter p = 2%nat.
Proof.
  eexists. split; [vm_compute; reflexivity|]. split; [vm_compute; reflexivity|].
  apply (proj2 (mutual_exclusion_counter (config STDSTOMIC_AVAILABLE linux 1) 2) contended);
    vm_compute; reflexivity.
Defined.

Lemma is_windows_vista_or_later_true pf :
  is_windows_vista_or_later pf = true
  ↔ ∃ osvi, GetVersionEx pf = Some osvi ∧ 6 ≤ dwMajorVersion osvi.
Proof.
  unfold is_windows_vista_or_later. destruct (GetVersionEx pf) as [osvi|]; split.
  - intros H. exists osvi. split; [done|]. lia.
  - intros (? & [= <-] & ?). lia.
  - done.
  - by intros (? & ? & _).
Qed.

(** The version query of lines 165-168: on Vista or later the thread goes
    on to the once-guard with [winver_checked] set; otherwise the process
    exits, and [stderr] is not written to on either path. *)
Lemma version_query_step c p self th :
  primitive c = WIN32_CRITICAL_SECTION → running p = true →
  threads p !! self = Some th → pc th = at_winver_query →
  ∃ q, step c p self = Some q ∧ stderr q = stderr p
  ∧ log q = (self, ev_version_query) :: log p
  ∧ if is_windows_vista_or_later (platform c)
    then exit_status q = exit_status p
         ∧ winver_checked (statics q) = true
         ∧ threads q = <[self := goto at_once th]> (threads p)
    else exit_status q = Some EXIT_FAILURE
         ∧ statics q = statics p
         ∧ threads q = <[self := goto at_exit th]> (threads p).
Proof.
  intros Hk Hrun Hth Hpc. unfold step, exec, global_lock_lock.
  rewrite Hrun, Hth, Hpc, Hk.
  destruct (is_windows_vista_or_later (platform c)); simpl; eexists; by split_and!.
Qed.

(** C3, at the failing input: on Windows XP (major version 5) the first
    call of the lock function ends the process with [EXIT_FAILURE] before
    anything is constructed or acquired, and nothing was written to
    [stderr]: the exit is silent. *)
Lemma version_check_exit_is_silent :
  run (config WIN32_CRITICAL_SECTION windows_xp 1) [0; 0; 0]%nat
      (start (config WIN32_CRITICAL_SECTION windows_xp 1) 1)
  = Some {| statics := initial_statics WIN32_CRITICAL_SECTION;
            counter := 0;
            stderr := [];
            exit_status := Some EXIT_FAILURE;
            undefined := false;
            log := [(0%nat, ev_version_query)];
            threads := [{| pc := at_exit; i := 0; tmp := 0 |}] |}.
Proof. reflexivity. Qed.

Lemma step_after_exit c p t : running p = false → step c p t = None.
Proof. unfold step. by intros ->. Qed.

Lemma run_after_exit c p t rest : running p = false → run c (t :: rest) p = None.
Proof. intros H. simpl. by rewrite step_after_exit. Qed.

Lemma init_mtx_message_text pf :
  init_mtx_message pf =
  "Failed to initialize the mutex!" ++ newline ++ "File: " ++ __FILE__ pf
  ++ "   Line: 85" ++ newline.
Proof. reflexivity. Qed.

(** C4. Initialization failure: when [mtx_init] does not report
    [thrd_success], [init_mtx] writes the diagnostic with file and line to
    [stderr] and calls [exit (EXIT_FAILURE)]; the thread never returns into
    the lock function, the mutex is left as it was, and no thread of the
    process makes another step. *)
Theorem initialization_failure_is_fatal c p self th :
  primitive c = C11_THREADS_AVAILABLE →
  mtx_init_result (platform c) ≠ thrd_success →
  running p = true → threads p !! self = Some th → pc th = at_init →
  init_mtx (platform c) p
    = exit EXIT_FAILURE (fprintf_stderr (init_mtx_message (platform c)) p)
  ∧ init_mtx_message (platform c)
    = "Failed to initialize the mutex!" ++ newline
      ++ "File: " ++ __FILE__ (platform c) ++ "   Line: 85" ++ newline
  ∧ ∃ q, step c p self = Some q
    ∧ stderr q = (stderr p ++ [init_mtx_message (platform c)])%list
    ∧ exit_status q = Some EXIT_FAILURE ∧ EXIT_FAILURE ≠ 0%Z
    ∧ statics q = statics p
    ∧ threads q !! self = Some (goto at_exit th)
    ∧ ∀ t rest, run c (t :: rest) q = None.
Proof.
  intros Hk Hfail Hrun Hth Hpc.
  assert (∀ p0, init_mtx (platform c) p0
    = exit EXIT_FAILURE (fprintf_stderr (init_mtx_message (platform c)) p0)) as Hinit.
  { intros p0. unfold init_mtx, mtx_init.
    destruct (mtx_init_result (platform c)); [done| |];
      by destruct p0 as [[] ? ? ? ? ? ?]. }
  split; [apply Hinit|]. split; [reflexivity|].
  unfold step, exec, global_lock_lock. rewrite Hrun, Hth, Hpc, Hk, Hinit. simpl.
  eexists. split; [reflexivity|]. simpl.
  split_and!; try done.
  all: try (apply list_lookup_insert_eq; by eapply lookup_lt_Some).
  all: try (intros; by apply run_after_exit).
Qed.

Lemma initialization_failure_is_fatal_witness :
  ∃ q, step (config C11_THREADS_AVAILABLE out_of_memory 1)
            {| statics := set_mtx_init_once once_running (initial_statics C11_THREADS_AVAILABLE);
               counter := 0; stderr := []; exit_status := None; undefined := false;
               log := [(0%nat, ev_once_guard)];
               threads := [{| pc := at_init; i := 0; tmp := 0 |}] |} 0 = Some q
  ∧ stderr q = [init_mtx_message out_of_memory]
  ∧ exit_status q = Some EXIT_FAILURE.
Proof.
  destruct (initialization_failure_is_fatal
    (config C11_THREADS_AVAILABLE out_of_memory 1)
    {| statics := set_mtx_init_once once_running (initial_statics C11_THREADS_AVAILABLE);
       counter := 0; stderr := []; exit_status := None; undefined := false;
       log := [(0%nat, ev_once_guard)];
       threads := [{| pc := at_init; i := 0; tmp := 0 |}] |}
    0%nat {| pc := at_init; i := 0; tmp := 0 |})
    as (_ & _ & q & S & E & X & _); try reflexivity; try discriminate.
  exists q. split; [exact S|]. split; [exact E|exact X].
Defined.

(** C5. Lazy initialisation exactly once: on the two primitives with a
    once-guard, under every interleaving, the construction step is never
    executed twice; a thread at or past the acquiring call finds the guard
    complete, the lock object constructed and the construction executed
    exactly once; and so does every run that ends after at least one call. *)
Theorem lazy_init_exactly_once c n schedule p :
  primitive c = C11_THREADS_AVAILABLE ∨ primitive c = WIN32_CRITICAL_SECTION →
  run c schedule (start c n) = Some p →
  (constructions p ≤ 1)%nat
  ∧ (∀ t th, threads p !! t = Some th → past_guard (pc th) = true →
       once_of (primitive c) (statics p) = Some once_complete
       ∧ usable (primitive c) (statics p) = true
       ∧ constructions p = 1%nat)
  ∧ (all_ended p = true → (0 < n)%nat → (0 < iterations c)%nat →
       once_of (primitive c) (statics p) = Some once_complete
       ∧ constructions p = 1%nat).
Proof.
  intros Hk R. pose proof (reachable_invariant _ _ _ _ R) as I.
  assert (once_of (primitive c) (statics p) ≠ None) as Hg.
  { by destruct Hk as [-> | ->]. }
  split; [apply (inv_once _ _ I)|]. split.
  - intros t th Hth Hpast.
    destruct (inv_past _ _ I t th Hth Hpast) as [?|Hc]; [done|].
    destruct (inv_complete _ _ I Hc). done.
  - intros E Hn HN.
    assert (∃ th, threads p !! 0%nat = Some th) as [th Hth].
    { apply lookup_lt_is_Some. rewrite (run_length _ _ _ _ R). simpl.
      by rewrite length_replicate. }
    unfold all_ended in E. rewrite forallb_forall in E.
    pose proof (E th (proj1 (list_elem_of_In _ _) (list_elem_of_lookup_2 _ _ _ Hth))) as Hend.
    apply bool_decide_eq_true in Hend.
    pose proof (inv_bound _ _ I _ _ Hth) as Hb. rewrite Hend in Hb.
    destruct (inv_done _ _ I _ _ Hth) as [?|Hc]; [lia|done|].
    destruct (inv_complete _ _ I Hc). done.
Qed.

Lemma lazy_init_exactly_once_witness :
  ∃ p, run (config C11_THREADS_AVAILABLE linux 1) (one_after_the_other 9 7)
           (start (config C11_THREADS_AVAILABLE linux 1) 2) = Some p
  ∧ constructions p = 1%nat.
Proof.
  eexists. split; [vm_compute; reflexivity|].
  apply (lazy_init_exactly_once (config C11_THREADS_AVAILABLE linux 1) 2
           (one_after_the_other 9 7));
    [left; reflexivity | vm_compute; reflexivity | vm_compute; reflexivity
    | simpl; lia | simpl; lia].
Defined.

Lemma goto_same th : goto (pc th) th = th.
Proof. by destruct th. Qed.

Lemma spin_attempt c p self th :
  is_spin (primitive c) = true → running p = true →
  threads p !! self = Some th → pc th = at_acquire →
  ∃ q, step c p self = Some q
  ∧ lock_free (primitive c) (statics q) = false
  ∧ log q = (self, ev_test_and_set (negb (lock_free (primitive c) (statics p)))) :: log p
  ∧ threads q
    = <[self := goto (if lock_free (primitive c) (statics p) then at_read else at_spin_wait) th]>
        (threads p)
  ∧ counter q = counter p ∧ stderr q = stderr p ∧ running q = true.
Proof.
  intros Hk Hrun Hth Hpc. unfold step, exec, global_lock_lock, acquire, lock_free, running in *.
  rewrite Hrun, Hth, Hpc.
  destruct (primitive c); try discriminate Hk; simpl.
  - destruct (global_lock_lock_flag (statics p)); simpl; eexists; split_and!; try reflexivity; done.
  - destruct (global_lock_lock_int (statics p) =? 0)%Z; simpl; eexists; split_and!; try reflexivity; done.
  - destruct (global_lock_lock_int (statics p) =? 0)%Z; simpl; eexists; split_and!; try reflexivity; done.
Qed.

Lemma spin_wait_step c p self th :
  is_spin (primitive c) = true → running p = true →
  threads p !! self = Some th → pc th = at_spin_wait →
  step c p self
  = Some (set_threads (<[self := goto at_acquire th]> (threads p))
            (record_event self (ev_spin_wait (SPIN_WAIT (spin_wait c))) p)).
Proof.
  intros Hk Hrun Hth Hpc. unfold step, exec, global_lock_lock. by rewrite Hrun, Hth, Hpc, Hk.
Qed.

Lemma spin_round c p self th :
  is_spin (primitive c) = true → running p = true →
  threads p !! self = Some th → pc th = at_acquire →
  lock_free (primitive c) (statics p) = false →
  ∃ q, run c [self; self] p = Some q
  ∧ running q = true ∧ threads q = threads p
  ∧ lock_free (primitive c) (statics q) = false
  ∧ log q = (self, ev_spin_wait (SPIN_WAIT (spin_wait c)))
            :: (self, ev_test_and_set true) :: log p
  ∧ counter q = counter p ∧ stderr q = stderr p.
Proof.
  intros Hk Hrun Hth Hpc Hbusy.
  destruct (spin_attempt c p self th Hk Hrun Hth Hpc)
    as (q1 & S1 & F1 & L1 & T1 & C1 & E1 & R1).
  rewrite Hbusy in L1, T1. simpl in L1.
  assert (threads q1 !! self = Some (goto at_spin_wait th)) as Hth1.
  { rewrite T1. apply list_lookup_insert_eq. by eapply lookup_lt_Some. }
  pose proof (spin_wait_step c q1 self _ Hk R1 Hth1 eq_refl) as S2.
  eexists. split; [simpl; rewrite S1, S2; reflexivity|]. simpl.
  split_and!; try done.
  - rewrite T1, list_insert_insert_eq. apply list_insert_id.
    rewrite Hth. f_equal. rewrite <- Hpc. by destruct th.
  - by rewrite L1.
Qed.

Lemma concat_replicate_comm {A} (l : list A) n :
  (concat (replicate n l) ++ l = l ++ concat (replicate n l))%list.
Proof.
  induction n as [|n IH]; simpl.
  - by rewrite app_nil_r.
  - by rewrite <- app_assoc, IH.
Qed.

Lemma spinning_unbounded c self th n : ∀ p,
  is_spin (primitive c) = true → running p = true →
  threads p !! self = Some th → pc th = at_acquire →
  lock_free (primitive c) (statics p) = false →
  ∃ q, run c (spinning self n) p = Some q
  ∧ running q = true ∧ threads q = threads p
  ∧ lock_free (primitive c) (statics q) = false
  ∧ log q = (spun c self n ++ log p)%list
  ∧ counter q = counter p ∧ stderr q = stderr p.
Proof.
  induction n as [|n IH]; intros p Hk Hrun Hth Hpc Hbusy.
  - exists p. by split_and!.
  - destruct (spin_round c p self th Hk Hrun Hth Hpc Hbusy)
      as (q1 & R1 & Rq & Tq & Fq & Lq & Cq & Eq).
    rewrite <- Tq in Hth.
    destruct (IH q1 Hk Rq Hth Hpc Fq) as (q & R & ? & ? & ? & L & ? & ?).
    exists q. split_and!; try congruence.
    + change (spinning self (S n)) with ([self; self] ++ spinning self n)%list.
      simpl in *. destruct (step c p self) as [p1|]; [|done].
      destruct (step c p1 self) as [p2|]; [|done]. by simplify_eq.
    + rewrite L, Lq. unfold spun. simpl.
      change ((self, ev_spin_wait (SPIN_WAIT (spin_wait c)))
              :: (self, ev_test_and_set true) :: log p)
        with ([(self, ev_spin_wait (SPIN_WAIT (spin_wait c)));
               (self, ev_test_and_set true)] ++ log p)%list.
      rewrite app_assoc, concat_replicate_comm. by rewrite <- app_assoc.
Qed.

Lemma unlock_spin k self p :
  is_spin k = true →
  ∃ q, global_lock_unlock k self p = returns q
  ∧ lock_free k (statics q) = true
  ∧ log q = (self, ev_release) :: log p
  ∧ counter q = counter p ∧ stderr q = stderr p
  ∧ exit_status q = exit_status p ∧ undefined q = undefined p.
Proof.
  intros Hk. destruct k; try discriminate Hk; simpl; eexists; by split_and!.
Qed.

(** C6. Spin-lock algorithm: on the three spin primitives an attempt is one
    atomic exchange that leaves the flag set; the thread enters the
    critical section exactly when the exchange found the flag clear and
    goes to [SPIN_WAIT] otherwise; [SPIN_WAIT] runs once and leads back to
    the next attempt; while the flag stays set the thread goes round any
    number [n] of times; and the unlock function clears the flag from every
    state, reporting nothing. *)
Theorem spin_lock_algorithm c p self th :
  is_spin (primitive c) = true → running p = true →
  threads p !! self = Some th →
  (pc th = at_acquire →
     ∃ q, step c p self = Some q
     ∧ lock_free (primitive c) (statics q) = false
     ∧ log q = (self, ev_test_and_set (negb (lock_free (primitive c) (statics p)))) :: log p
     ∧ threads q
       = <[self := goto (if lock_free (primitive c) (statics p)
                         then at_read else at_spin_wait) th]> (threads p))
  ∧ (pc th = at_spin_wait →
     step c p self
     = Some (set_threads (<[self := goto at_acquire th]> (threads p))
               (record_event self (ev_spin_wait (SPIN_WAIT (spin_wait c))) p)))
  ∧ (pc th = at_acquire → lock_free (primitive c) (statics p) = false →
     ∀ n, ∃ q, run c (spinning self n) p = Some q
          ∧ running q = true ∧ threads q = threads p
          ∧ lock_free (primitive c) (statics q) = false
          ∧ log q = (spun c self n ++ log p)%list)
  ∧ (∃ q, global_lock_unlock (primitive c) self p = returns q
     ∧ lock_free (primitive c) (statics q) = true
     ∧ log q = (self, ev_release) :: log p
     ∧ stderr q = stderr p ∧ exit_status q = exit_status p
     ∧ undefined q = undefined p).
Proof.
  intros Hk Hrun Hth. split_and!.
  - intros Hpc.
    destruct (spin_attempt c p self th Hk Hrun Hth Hpc) as (q & ? & ? & ? & ? & _).
    by exists q.
  - intros Hpc. by apply spin_wait_step.
  - intros Hpc Hbusy n.
    destruct (spinning_unbounded c self th n p Hk Hrun Hth Hpc Hbusy)
      as (q & ? & ? & ? & ? & ? & _).
    by exists q.
  - destruct (unlock_spin (primitive c) self p Hk) as (q & ? & ? & ? & ? & ? & ? & ?).
    by exists q.
Qed.

Lemma spin_lock_algorithm_witness :
  run (config GCC_SYNC_BUILTIN_AVAILABLE linux 1) [0; 0; 1]%nat
      (start (config GCC_SYNC_BUILTIN_AVAILABLE linux 1) 2) = Some flag_taken
  ∧ ∃ q, run (config GCC_SYNC_BUILTIN_AVAILABLE linux 1) (spinning 1 3) flag_taken = Some q
    ∧ log q = (spun (config GCC_SYNC_BUILTIN_AVAILABLE linux 1) 1 3 ++ log flag_taken)%list.
Proof.
  split; [vm_compute; reflexivity|].
  destruct (spin_lock_algorithm (config GCC_SYNC_BUILTIN_AVAILABLE linux 1) flag_taken
              1%nat {| pc := at_acquire; i := 0; tmp := 0 |} eq_refl eq_refl eq_refl)
    as (_ & _ & H & _).
  destruct (H eq_refl eq_refl 3%nat) as (q & R & _ & _ & _ & L).
  exists q. split; [exact R | exact L].
Defined.

(** C7. No initialisation on the statically initialised primitives: on
    POSIX threads and on the three spin primitives the lock function starts
    at the acquiring call, the lock object is usable from the start, and no
    run ever executes a version query, a once-guard or a construction step,
    nor has a thread at one of their points. *)
Theorem static_primitives_skip_initialization c n schedule p :
  primitive c = PTHREAD_AVAILABLE ∨ is_spin (primitive c) = true →
  run c schedule (start c n) = Some p →
  lock_entry (primitive c) = at_acquire
  ∧ usable (primitive c) (statics p) = true
  ∧ Forall (fun e => init_event (snd e) = false) (log p)
  ∧ (∀ t th, threads p !! t = Some th →
       pc th ≠ at_winver_check ∧ pc th ≠ at_winver_query
       ∧ pc th ≠ at_once ∧ pc th ≠ at_init ∧ pc th ≠ at_once_return)
  ∧ (∀ t th, threads p !! t = Some th → running p = true →
       pc th = at_loop → (i th < iterations c)%nat →
       step c p t = Some (set_threads (<[t := goto at_acquire th]> (threads p)) p)).
Proof.
  intros Hk R. pose proof (reachable_invariant _ _ _ _ R) as I.
  assert (once_of (primitive c) (statics p) = None) as Hg.
  { destruct Hk as [-> | Hk]; [done|]. by destruct (primitive c). }
  assert (lock_entry (primitive c) = at_acquire) as He.
  { destruct Hk as [-> | Hk]; [done|]. by destruct (primitive c). }
  split_and!.
  - exact He.
  - destruct Hk as [Hk | Hk]; [by apply (inv_pthread _ _ I)|]. by destruct (primitive c).
  - by apply (inv_unguarded _ _ I).
  - intros t th Hth. pose proof (inv_points _ _ I t th Hth) as Hp.
    destruct Hk as [Hk | Hk]; [rewrite Hk in Hp|];
      destruct (pc th); try destruct (primitive c); try discriminate; done.
  - intros t th Hth Hrun Hpc Hi. unfold step, exec.
    rewrite Hrun, Hth, Hpc, He. apply Nat.ltb_lt in Hi. by rewrite Hi.
Qed.

Lemma static_primitives_skip_initialization_witness :
  ∃ p, run (config PTHREAD_AVAILABLE linux 1) (one_after_the_other 6 6)
           (start (config PTHREAD_AVAILABLE linux 1) 2) = Some p
  ∧ Forall (fun e => init_event (snd e) = false) (log p).
Proof.
  eexists. split; [vm_compute; reflexivity|].
  apply (static_primitives_skip_initialization (config PTHREAD_AVAILABLE linux 1) 2
           (one_after_the_other 6 6));
    [left; reflexivity | vm_compute; reflexivity].
Defined.

(** C8. SpinWait: whichever spin primitive was selected, [SPIN_WAIT] is
    chosen from the target alone: it executes one pause instruction on x86
    and x86-64, else one [sched_yield] when [_POSIX_PRIORITY_SCHEDULING] is
    defined, else the busy loop, which executes exactly 1000 barriers; and
    a [SPIN_WAIT] step always returns, executes just that, and leaves the
    header's objects, the counter, [stderr] and the exit status as they
    were. *)
Theorem spin_wait_selection_and_purity m k :
  select_primitive m = cpp_ok k → is_spin k = true →
  SPIN_WAIT_macro m k = Some (by_target m)
  ∧ SPIN_WAIT mm_pause = [do_pause]
  ∧ SPIN_WAIT sched_yield = [do_yield]
  ∧ SPIN_WAIT busy_loop = replicate 1000 do_barrier
  ∧ SPIN_WAIT <$> SPIN_WAIT_macro m k = Some (wait_by_target m)
  ∧ ∀ c p self th,
      primitive c = k → running p = true →
      threads p !! self = Some th → pc th = at_spin_wait →
      ∃ q, step c p self = Some q
      ∧ statics q = statics p ∧ counter q = counter p
      ∧ stderr q = stderr p ∧ exit_status q = exit_status p
      ∧ undefined q = undefined p
      ∧ log q = (self, ev_spin_wait (SPIN_WAIT (spin_wait c))) :: log p
      ∧ (Some (spin_wait c) = SPIN_WAIT_macro m k →
         log q = (self, ev_spin_wait (wait_by_target m)) :: log p)
      ∧ threads q = <[self := goto at_acquire th]> (threads p).
Proof.
  intros S Hk.
  assert (SPIN_WAIT (by_target m) = wait_by_target m) as Hw.
  { unfold by_target, wait_by_target. by repeat case_match. }
  split_and!.
  - by apply SPIN_WAIT_macro_spin.
  - reflexivity.
  - reflexivity.
  - reflexivity.
  - rewrite (SPIN_WAIT_macro_spin m k S Hk). simpl. by rewrite Hw.
  - intros c p self th <- Hrun Hth Hpc.
    rewrite (spin_wait_step c p self th Hk Hrun Hth Hpc).
    eexists. split_and!; try done.
    rewrite (SPIN_WAIT_macro_spin m _ S Hk). intros [= ->]. simpl. by rewrite Hw.
Qed.

Lemma spin_wait_selection_and_purity_witness :
  select_primitive gcc44_arm = cpp_ok GCC_SYNC_BUILTIN_AVAILABLE
  ∧ SPIN_WAIT_macro gcc44_arm GCC_SYNC_BUILTIN_AVAILABLE = Some (spin_wait gcc44_arm_build)
  ∧ run gcc44_arm_build attempt_fails (start gcc44_arm_build 2) = Some spin_waiting
  ∧ ∃ q, step gcc44_arm_build spin_waiting 1%nat = Some q
    ∧ statics q = statics spin_waiting ∧ counter q = counter spin_waiting
    ∧ stderr q = [] ∧ exit_status q = None ∧ undefined q = false
    ∧ log q = (1%nat, ev_spin_wait (replicate 1000 do_barrier)) :: log spin_waiting
    ∧ threads q = [ {| pc := at_read; i := 0; tmp := 0 |};
                    {| pc := at_acquire; i := 0; tmp := 0 |} ].
Proof.
  destruct (spin_wait_selection_and_purity gcc44_arm GCC_SYNC_BUILTIN_AVAILABLE
              eq_refl eq_refl) as (Hsel & _ & _ & _ & _ & Hstep).
  destruct (Hstep gcc44_arm_build spin_waiting 1%nat
              {| pc := at_spin_wait; i := 0; tmp := 0 |} eq_refl eq_refl eq_refl eq_refl)
    as (q & Hq & Hs & Hc & He & Hx & Hu & _ & Hl & Ht).
  split; [reflexivity|]. split; [exact Hsel|]. split; [vm_compute; reflexivity|].
  exists q. split_and!; try done. by apply Hl.
Defined.

(** C9. Shutdown: [global_lock_quit] destroys the mutex on the C11 and
    POSIX primitives and deletes the critical section on Windows (the
    object being constructed and free, as it is once all threads are done),
    and on the three spin primitives it returns the process unchanged. *)
Theorem shutdown_effect k p :
  (k = C11_THREADS_AVAILABLE ∨ k = PTHREAD_AVAILABLE →
   global_lock_lock_mutex (statics p) = mtx_free →
   global_lock_quit k p = returns (with_statics (set_mutex mtx_destroyed) p))
  ∧ (k = WIN32_CRITICAL_SECTION →
     global_lock_lock_cs (statics p) = cs_free →
     global_lock_quit k p = returns (with_statics (set_cs cs_deleted) p))
  ∧ (is_spin k = true → global_lock_quit k p = returns p).
Proof.
  split_and!.
  - intros [-> | ->] H; simpl; by rewrite H.
  - intros -> H; simpl; by rewrite H.
  - intros Hk. by destruct k.
Qed.

Lemma shutdown_effect_witness :
  global_lock_quit PTHREAD_AVAILABLE (start (config PTHREAD_AVAILABLE linux 1) 2)
  = returns (with_statics (set_mutex mtx_destroyed)
               (start (config PTHREAD_AVAILABLE linux 1) 2)).
Proof.
  apply (shutdown_effect PTHREAD_AVAILABLE (start (config PTHREAD_AVAILABLE linux 1) 2));
    [right; reflexivity | reflexivity].
Defined.

Lemma ended_lock_free c p :
  Invariant c p → all_ended p = true → (0 < length (threads p))%nat →
  (0 < iterations c)%nat → is_spin (primitive c) = false →
  owner (primitive c) (statics p) = None ∧ usable (primitive c) (statics p) = true.
Proof.
  intros I E Hn HN Hk. unfold all_ended in E. rewrite forallb_forall in E.
  assert (∀ t th, threads p !! t = Some th → pc th = at_end) as Hend.
  { intros t th Hth. eapply bool_decide_eq_true_1, E, list_elem_of_In.
    by eapply list_elem_of_lookup_2. }
  split.
  - destruct (owner (primitive c) (statics p)) as [o|] eqn:Ho; [|done].
    destruct (inv_owner_out _ _ I o Ho) as (th & Hth & Hc).
    by rewrite (Hend _ _ Hth) in Hc.
  - destruct (lookup_lt_is_Some_2 (threads p) 0%nat Hn) as [th Hth].
    pose proof (inv_bound _ _ I _ _ Hth) as Hb. rewrite (Hend _ _ Hth) in Hb.
    destruct (inv_done _ _ I _ _ Hth) as [Hg|Hc]; [lia| |].
    + pose proof (inv_pthread _ _ I) as Hu.
      destruct (primitive c); try done. by apply Hu.
    + by destruct (inv_complete _ _ I Hc).
Qed.

(** X16. After every completed run with at least one thread and one
    iteration, [global_lock_quit] returns: the lock object is constructed
    and free by then, and afterwards it is destroyed on the blocking builds
    and untouched on the spin builds. *)
Lemma shutdown_after_run c n schedule p :
  run c schedule (start c n) = Some p → all_ended p = true →
  (0 < n)%nat → (0 < iterations c)%nat →
  ∃ q, global_lock_quit (primitive c) p = returns q
  ∧ usable (primitive c) (statics q) = is_spin (primitive c).
Proof.
  intros R E Hn HN. pose proof (reachable_invariant _ _ _ _ R) as I.
  destruct (is_spin (primitive c)) eqn:Hk.
  - exists p. by destruct (primitive c).
  - destruct (ended_lock_free c p I E) as [Ho Hu]; try done.
    { rewrite (run_length _ _ _ _ R). simpl. by rewrite length_replicate. }
    unfold global_lock_quit, owner, usable in *.
    destruct (primitive c); try discriminate Hk.
    + destruct (global_lock_lock_mutex (statics p)); try done. by eexists.
    + destruct (global_lock_lock_mutex (statics p)); try done. by eexists.
    + destruct (global_lock_lock_cs (statics p)); try done. by eexists.
Qed.

(* ===================================================================== *)
(** * Part V: further properties of the code                              *)
(* ===================================================================== *)

(** ** The preprocessor program *)

(** X1. Whenever the header preprocesses, [SPIN_WAIT] is defined exactly on
    the builds whose lock function uses it: the three spin builds.  No
    build is left calling an undefined [SPIN_WAIT], none defines it in
    vain. *)
Theorem spin_wait_defined_where_used m tu :
  preprocess m = cpp_ok tu →
  defined (tu_spin_wait tu) = is_spin (tu_primitive tu).
Proof.
  unfold preprocess, cpp_bind. destruct (winnt_gate m); [|done].
  destruct (select_primitive m) as [k|] eqn:S; [|done]. intros [= <-]. simpl.
  unfold SPIN_WAIT_macro, select_primitive in *.
  repeat case_match; simplify_eq/=; try done.
  all: unfold gcc_builtin_probe in *; repeat case_match; simplify_eq/=; done.
Qed.

Lemma spin_wait_defined_where_used_witness :
  ∃ tu, preprocess gcc44_arm = cpp_ok tu
  ∧ defined (tu_spin_wait tu) = is_spin (tu_primitive tu).
Proof.
  eexists. split; [vm_compute; reflexivity|].
  apply (spin_wait_defined_where_used gcc44_arm); vm_compute; reflexivity.
Defined.

(** X2. A build for Windows that gets through the header has
    [_WIN32_WINNT] defined and at least 0x0600, never selects a spin
    primitive and never defines [SPIN_WAIT]: on Windows the lock always
    blocks in the operating system. *)
Theorem windows_builds_block m tu :
  preprocess m = cpp_ok tu → _WIN32 m = true →
  (∃ v, _WIN32_WINNT m = Some v ∧ 0x0600 ≤ v)
  ∧ is_spin (tu_primitive tu) = false
  ∧ tu_spin_wait tu = None.
Proof.
  unfold preprocess, cpp_bind, winnt_gate. intros P W. rewrite W in P. simpl in P.
  destruct (_WIN32_WINNT m) as [v|] eqn:V; simpl in P; [|done].
  destruct (v <? 1536) eqn:Hv; [done|]. apply Z.ltb_ge in Hv.
  destruct (select_primitive m) as [k|] eqn:S; [|done]. injection P as <-. simpl.
  split; [eauto|].
  unfold SPIN_WAIT_macro. rewrite W.
  unfold select_primitive in S. rewrite W in S.
  repeat case_match; simplify_eq/=; try done; by rewrite andb_false_r.
Qed.

Lemma windows_builds_block_witness :
  ∃ tu, preprocess windows_msvc = cpp_ok tu
  ∧ ((∃ v, _WIN32_WINNT windows_msvc = Some v ∧ 0x0600 ≤ v)
     ∧ is_spin (tu_primitive tu) = false
     ∧ tu_spin_wait tu = None).
Proof.
  eexists. split; [vm_compute; reflexivity|].
  apply (windows_builds_block windows_msvc); vm_compute; reflexivity.
Defined.

(** X3. Without the [__has_builtin] operator, the legacy
    [__sync_lock_test_and_set] builtin is selected only for GCC proper,
    versions 4.1 to 4.6. *)
Theorem legacy_builtin_only_for_old_gcc m :
  select_primitive m = cpp_ok GCC_SYNC_BUILTIN_AVAILABLE →
  __has_builtin m = None →
  __clang__ m = false ∧ __GNUC__ m = Some 4
  ∧ ∃ minor, __GNUC_MINOR__ m = Some minor ∧ 1 ≤ minor ≤ 6.
Proof.
  unfold select_primitive, gcc_builtin_probe. intros S B. rewrite B in S.
  destruct (__GNUC__ m) as [g|] eqn:G, (__GNUC_MINOR__ m) as [n|] eqn:N;
    repeat case_match; simplify_eq/=.
  destruct (__clang__ m); simpl in *; [done|].
  repeat match goal with
  | H : _ || _ = false |- _ => apply orb_false_iff in H as [? ?]
  | H : _ && _ = true |- _ => apply andb_true_iff in H as [? ?]
  | H : _ && _ = false |- _ => apply andb_false_iff in H
  end.
  assert (g = 4) as -> by lia. split; [done|]. split; [done|].
  exists n. split; [done|]. lia.
Qed.

Lemma legacy_builtin_only_for_old_gcc_witness :
  __clang__ gcc44_arm = false ∧ __GNUC__ gcc44_arm = Some 4
  ∧ ∃ minor, __GNUC_MINOR__ gcc44_arm = Some minor ∧ 1 ≤ minor ≤ 6.
Proof.
  apply (legacy_builtin_only_for_old_gcc gcc44_arm); reflexivity.
Defined.

(** X4. The branch hints never change the branch: under every compiler
    [if (LIKELY(x))] and [if (UNLIKELY(x))] take the branch [if (x)]
    takes. *)
Theorem branch_hints_keep_the_branch m x :
  taken (LIKELY m x) = taken x ∧ taken (UNLIKELY m x) = taken x.
Proof.
  unfold LIKELY, UNLIKELY, __builtin_expect, logical_not, taken.
  destruct (defined (__GNUC__ m)); [|done].
  by destruct (x =? 0).
Qed.

(** ** One call on its own *)

Lemma step_keeps_initialisation c p t q :
  step c p t = Some q →
  (once_of (primitive c) (statics p) = Some once_complete →
   once_of (primitive c) (statics q) = Some once_complete)
  ∧ (winver_checked (statics p) = true → winver_checked (statics q) = true)
  ∧ (usable (primitive c) (statics p) = true → usable (primitive c) (statics q) = true).
Proof.
  intros (_ & th & Hth & [(q0 & th' & E & ->)|(E & ->)])%step_cases; [|done].
  unfold exec, global_lock_lock, acquire, global_lock_unlock, InitCriticalSection,
    init_mtx, mtx_init, InitializeCriticalSection, mtx_lock, mtx_unlock,
    EnterCriticalSection, LeaveCriticalSection, once_of, usable in *.
  destruct (pc th), (primitive c); simpl in *;
    repeat case_match; simplify_eq/=; split_and!; try done; congruence.
Qed.

Ltac call_alone Hk :=
  eexists; split;
  [ cbn [replicate]; repeat advance Hk; apply run_nil
  | normalize; rewrite ?list_insert_insert_eq; split_and!; reflexivity ].

(** X5. A lock/unlock pair that no other thread disturbs: from a state
    where the lock is ready (never used, or constructed and free), one
    iteration of the caller's loop returns after finitely many steps of
    that thread alone, adds one to the counter, prints nothing, does not
    exit, and leaves the header's objects initialised and the lock free
    again; a second pair would leave them as they are. *)
Theorem lock_unlock_alone c p t th :
  healthy c = true → running p = true →
  ready (primitive c) (statics p) = true →
  threads p !! t = Some th → pc th = at_loop → (i th < iterations c)%nat →
  ∃ m q, run c (replicate m t) p = Some q
  ∧ statics q = initialised (primitive c) (statics p)
  ∧ initialised (primitive c) (statics q) = statics q
  ∧ ready (primitive c) (statics q) = true
  ∧ exit_status q = None ∧ stderr q = stderr p ∧ undefined q = false
  ∧ counter q = (counter p + 1)%nat
  ∧ threads q = <[t := {| pc := at_loop; i := S (i th); tmp := counter p |}]> (threads p).
Proof.
  intros Hc Hrun Hready Hth Hpc Hlt.
  pose proof (lookup_lt_Some _ _ _ Hth) as Hlen.
  apply Nat.ltb_lt in Hlt.
  destruct th as [pt j x]. simpl in Hpc, Hlt. subst pt.
  destruct p as [[mx o1 o2 cs wv fl n] cnt err ex ud lg ths].
  unfold running, healthy in *. simpl in *.
  destruct ex; [done|]. destruct ud; [done|]. clear Hrun.
  destruct (primitive c) eqn:Hk; simpl in *.
  - destruct (mtx_init_result (platform c)) eqn:Hinit; try done.
    destruct o1, mx; try done.
    + exists 8%nat. call_alone Hk.
    + exists 6%nat. call_alone Hk.
  - destruct mx; try done. exists 5%nat. call_alone Hk.
  - destruct o2, cs, wv; try done.
    + exists 9%nat. call_alone Hk.
    + exists 10%nat. call_alone Hk.
    + exists 7%nat. call_alone Hk.
    + exists 8%nat. call_alone Hk.
  - destruct fl; try done. exists 5%nat. call_alone Hk.
  - destruct (n =? 0)%Z eqn:Hn; try done. apply Z.eqb_eq in Hn. subst n.
    exists 5%nat. call_alone Hk.
  - destruct (n =? 0)%Z eqn:Hn; try done. apply Z.eqb_eq in Hn. subst n.
    exists 5%nat. call_alone Hk.
Qed.

Lemma lock_unlock_alone_witness :
  ∃ m q, run (config WIN32_CRITICAL_SECTION windows_10 1) (replicate m 0%nat)
             (start (config WIN32_CRITICAL_SECTION windows_10 1) 2) = Some q
  ∧ statics q = initialised WIN32_CRITICAL_SECTION (initial_statics WIN32_CRITICAL_SECTION)
  ∧ initialised WIN32_CRITICAL_SECTION (statics q) = statics q
  ∧ ready WIN32_CRITICAL_SECTION (statics q) = true
  ∧ exit_status q = None ∧ stderr q = [] ∧ undefined q = false
  ∧ counter q = 1%nat
  ∧ threads q = [ {| pc := at_loop; i := 1; tmp := 0 |}; new_thread ].
Proof.
  apply (lock_unlock_alone (config WIN32_CRITICAL_SECTION windows_10 1)
           (start (config WIN32_CRITICAL_SECTION windows_10 1) 2) 0%nat new_thread);
    [reflexivity | reflexivity | reflexivity | reflexivity | reflexivity | simpl; lia].
Defined.

(** X6. Initialisation is never undone by the lock and unlock functions:
    along every run from every state, a completed once-guard stays
    completed, a cached version check stays cached and a constructed lock
    object stays constructed. *)
Theorem initialisation_is_permanent c schedule : ∀ p q,
  run c schedule p = Some q →
  (once_of (primitive c) (statics p) = Some once_complete →
   once_of (primitive c) (statics q) = Some once_complete)
  ∧ (winver_checked (statics p) = true → winver_checked (statics q) = true)
  ∧ (usable (primitive c) (statics p) = true → usable (primitive c) (statics q) = true).
Proof.
  induction schedule as [|t rest IH]; intros p q R; simpl in R.
  - by simplify_eq.
  - destruct (step c p t) as [p1|] eqn:S; [|done].
    destruct (step_keeps_initialisation c p t p1 S) as (A & B & C).
    destruct (IH p1 q R) as (A' & B' & C'). split_and!; auto.
Qed.

Lemma initialisation_is_permanent_witness :
  ∃ p q, run (config WIN32_CRITICAL_SECTION windows_10 2) (replicate 10 0%nat)
             (start (config WIN32_CRITICAL_SECTION windows_10 2) 2) = Some p
  ∧ run (config WIN32_CRITICAL_SECTION windows_10 2) (one_after_the_other 3 7) p = Some q
  ∧ (once_of WIN32_CRITICAL_SECTION (statics p) = Some once_complete
     ∧ winver_checked (statics p) = true
     ∧ usable WIN32_CRITICAL_SECTION (statics p) = true)
  ∧ (once_of WIN32_CRITICAL_SECTION (statics q) = Some once_complete
     ∧ winver_checked (statics q) = true
     ∧ usable WIN32_CRITICAL_SECTION (statics q) = true).
Proof.
  eexists. eexists. split; [vm_compute; reflexivity|].
  split; [vm_compute; reflexivity|].
  match goal with
  | |- (once_of _ (statics ?p) = _ ∧ _) ∧ (once_of _ (statics ?q) = _ ∧ _) =>
      destruct (initialisation_is_permanent
                  (config WIN32_CRITICAL_SECTION windows_10 2) (one_after_the_other 3 7) p q)
        as (A & B & C); [vm_compute; reflexivity|]
  end.
  split; [vm_compute; split_and!; reflexivity|].
  split_and!; [apply A | apply B | apply C]; vm_compute; reflexivity.
Defined.

(** ** Exit status, diagnostics and the version check *)

Ltac use_discipline D t th Hth :=
  pose proof (dis_exit_code _ _ D);
  pose proof (dis_healthy _ _ D);
  pose proof (dis_stderr _ _ D);
  pose proof (dis_static _ _ D);
  pose proof (dis_exit_point _ _ D t th Hth);
  pose proof (dis_blocking _ _ D);
  pose proof (dis_spinning _ _ D);
  pose proof (dis_checked _ _ D t th Hth);
  pose proof (dis_checked_later _ _ D t th Hth);
  pose proof (dis_query_fresh _ _ D t th Hth);
  pose proof (dis_no_query _ _ D).

Ltac other_discipline D t0 th0 Hl0 :=
  pose proof (dis_exit_point _ _ D t0 th0 Hl0);
  pose proof (dis_checked _ _ D t0 th0 Hl0);
  pose proof (dis_checked_later _ _ D t0 th0 Hl0);
  pose proof (dis_query_fresh _ _ D t0 th0 Hl0).

Ltac unfold_discipline :=
  unfold healthy, version_queries, once_of, running in *;
  repeat match goal with
  | Hk : primitive ?c = _ |- _ => rewrite !Hk in *
  | Hk : primitive ?c = _, H : context [primitive ?c] |- _ => rewrite !Hk in H
  end;
  repeat match goal with
  | H : exit_status ?p = _, H' : context [exit_status ?p] |- _ =>
      rewrite H in H'; simpl in H'
  | H : mtx_init_result ?pf = _, H' : context [mtx_init_result ?pf] |- _ =>
      rewrite H in H'; simpl in H'
  | H : is_windows_vista_or_later ?pf = _,
    H' : context [is_windows_vista_or_later ?pf] |- _ =>
      rewrite H in H'; simpl in H'
  | H : stderr ?p = _ |- context [stderr ?p] => rewrite H
  | H : mtx_init_result ?pf = _ |- context [mtx_init_result ?pf] => rewrite H
  | H : is_windows_vista_or_later ?pf = _
    |- context [is_windows_vista_or_later ?pf] => rewrite H
  end;
  simpl in *.

Ltac close_discipline :=
  intros; unfold_discipline; tidy;
  try match goal with H : ?b ≠ false |- ?b = true => by destruct b end;
  repeat split; try finish;
  try (left; finish); try (right; repeat split; finish).

Ltac per_thread_discipline D t :=
  let t0 := fresh "t0" in let th0 := fresh "th0" in let Hl0 := fresh "Hl0" in
  intros t0 th0 Hl0; split_lookup Hl0 t0;
  [ intros; close_discipline
  | other_discipline D t0 th0 Hl0; intros; close_discipline ].

Ltac queries_field :=
  rewrite length_insert; unfold may_query in *; simpl in *;
  repeat match goal with
  | H : pc ?th = _, H' : context [pc ?th] |- _ => rewrite H in H'; simpl in H'
  end;
  repeat case_bool_decide; try done; tidy;
  repeat match goal with
  | H : context [match i ?th with _ => _ end] |- _ => destruct (i th) eqn:?; simpl in H
  end;
  tidy; lia.

Ltac callback_field t :=
  intros; unfold_discipline; tidy; try congruence;
  first
    [ by (eexists t, _; split; [apply list_lookup_insert_eq; done | reflexivity])
    | match goal with
      | Hl : threads _ !! ?t1 = Some ?th1 |- _ =>
          destruct (decide (t1 = t)) as [->|];
          [ by (simplify_eq; tidy)
          | by (eexists t1, th1; split; [by rewrite list_lookup_insert_ne | done]) ]
      end ].

Lemma Discipline_exec c p t th q th' :
  Discipline c p → running p = true → threads p !! t = Some th →
  exec c p t th = returns (q, th') →
  Discipline c (set_threads (<[t:=th']> (threads p)) q).
Proof.
  intros D Hrun Hth E. use_discipline D t th Hth.
  pose proof (sum_list_with_insert may_query _ t th th' Hth) as Hsum.
  pose proof (dis_queries _ _ D) as Hq.
  pose proof (dis_callback _ _ D) as Hcb.
  pose proof (lookup_lt_Some _ _ _ Hth) as Hlen.
  unfold running in Hrun. apply andb_true_iff in Hrun as [Hex Hud].
  destruct (exit_status p) eqn:Hexit; [done|]. clear Hex.
  unfold exec, global_lock_lock, acquire, global_lock_unlock, InitCriticalSection,
    init_mtx, mtx_init in E.
  destruct (pc th) eqn:Hpc, (primitive c) eqn:Hk; simpl in *;
    unfold healthy, version_queries, once_of in *; rewrite ?Hk in *; simpl in *.
  all: split_cases; tidy; split_cases; tidy.
  all: split; unfold healthy, version_queries, once_of; rewrite ?Hk; simpl.
  all: try done.
  all: try lazymatch goal with
       | |- ∀ t0 th0, _ !! t0 = Some th0 → _ => per_thread_discipline D t
       | |- (_ ≤ length _)%nat => queries_field
       | |- _ → _ → ∃ _ _, _ => callback_field t
       | |- _ => by close_discipline
       end.
Qed.

Lemma Discipline_start c n : Discipline c (start c n).
Proof.
  split; simpl; auto.
  all: try (intros ? ? [-> ?]%lookup_replicate; simpl; intros; first [done | lia]).
  - by destruct (primitive c).
  - rewrite length_replicate. induction n; simpl; lia.
Qed.

Lemma Discipline_step c p t p' :
  Discipline c p → step c p t = Some p' → Discipline c p'.
Proof.
  intros D (Hrun & th & Hth & [(q & th' & E & ->)|(E & ->)])%step_cases.
  - by eapply Discipline_exec.
  - by destruct D.
Qed.

Lemma Discipline_run c schedule : ∀ p p',
  Discipline c p → run c schedule p = Some p' → Discipline c p'.
Proof.
  induction schedule as [|t rest IH]; intros p p' D R; simpl in R.
  - by simplify_eq.
  - destruct (step c p t) as [p1|] eqn:S; [|done].
    eapply IH; [|exact R]. by eapply Discipline_step.
Qed.

Lemma reachable_discipline c n schedule p :
  run c schedule (start c n) = Some p → Discipline c p.
Proof. apply Discipline_run, Discipline_start. Qed.

(** X7. How a process can fail: in every reachable state the process has
    not exited or has exited with [EXIT_FAILURE]; where [mtx_init]
    succeeds and Windows is Vista or later it never exits and never prints;
    and anything on stderr is the one message of [init_mtx], printed once,
    on the C11 build, with the exit that follows it. *)
Theorem failure_modes c n schedule p :
  run c schedule (start c n) = Some p →
  (exit_status p = None ∨ exit_status p = Some EXIT_FAILURE)
  ∧ (healthy c = true → exit_status p = None ∧ stderr p = [])
  ∧ (stderr p ≠ [] →
       primitive c = C11_THREADS_AVAILABLE
       ∧ mtx_init_result (platform c) ≠ thrd_success
       ∧ stderr p = [init_mtx_message (platform c)]
       ∧ exit_status p = Some EXIT_FAILURE).
Proof.
  intros R. pose proof (reachable_discipline _ _ _ _ R) as D.
  split; [apply (dis_exit_code _ _ D)|]. split.
  - intros Hc. pose proof (dis_healthy _ _ D Hc) as He. split; [done|].
    destruct (dis_stderr _ _ D) as [?|(_ & _ & _ & ?)]; [done|congruence].
  - intros Hs. by destruct (dis_stderr _ _ D) as [?|?].
Qed.

Lemma failure_modes_witness :
  ∃ p, run (config C11_THREADS_AVAILABLE out_of_memory 1) into_init
           (start (config C11_THREADS_AVAILABLE out_of_memory 1) 1) = Some p
  ∧ ((exit_status p = None ∨ exit_status p = Some EXIT_FAILURE)
     ∧ (healthy (config C11_THREADS_AVAILABLE out_of_memory 1) = true →
        exit_status p = None ∧ stderr p = [])
     ∧ (stderr p ≠ [] →
        primitive (config C11_THREADS_AVAILABLE out_of_memory 1) = C11_THREADS_AVAILABLE
        ∧ mtx_init_result (platform (config C11_THREADS_AVAILABLE out_of_memory 1))
          ≠ thrd_success
        ∧ stderr p
          = [init_mtx_message (platform (config C11_THREADS_AVAILABLE out_of_memory 1))]
        ∧ exit_status p = Some EXIT_FAILURE)).
Proof.
  eexists. split; [vm_compute; reflexivity|].
  apply (failure_modes (config C11_THREADS_AVAILABLE out_of_memory 1) 1 into_init);
    vm_compute; reflexivity.
Defined.

(** X8. The Windows version is asked at most once per thread, and only
    before that thread's first call has got past the check: the number of
    [GetVersionEx] queries never exceeds the number of threads (several
    threads may ask, as the comment on line 169 allows), no other build
    asks at all, and a thread behind the check or with a completed call
    finds [winver_checked] set. *)
Theorem version_queries_bounded c n schedule p :
  run c schedule (start c n) = Some p →
  (version_queries p ≤ n)%nat
  ∧ (primitive c ≠ WIN32_CRITICAL_SECTION → version_queries p = O)
  ∧ (primitive c = WIN32_CRITICAL_SECTION →
     ∀ t th, threads p !! t = Some th →
       (pc th = at_winver_query → i th = O)
       ∧ (past_check (pc th) = true ∨ (0 < i th)%nat →
          winver_checked (statics p) = true)).
Proof.
  intros R. pose proof (reachable_discipline _ _ _ _ R) as D.
  split_and!.
  - pose proof (dis_queries _ _ D) as Hq. rewrite (run_length _ _ _ _ R) in Hq.
    simpl in Hq. rewrite length_replicate in Hq. lia.
  - apply (dis_no_query _ _ D).
  - intros Hk t th Hth. split; [apply (dis_query_fresh _ _ D t th Hth)|].
    intros [?|?]; [by eapply (dis_checked _ _ D)|by eapply (dis_checked_later _ _ D)].
Qed.

Lemma version_queries_bounded_witness :
  ∃ p, run (config WIN32_CRITICAL_SECTION windows_10 1) both_ask
           (start (config WIN32_CRITICAL_SECTION windows_10 1) 2) = Some p
  ∧ version_queries p = 2%nat
  ∧ ((version_queries p ≤ 2)%nat
     ∧ (primitive (config WIN32_CRITICAL_SECTION windows_10 1) ≠ WIN32_CRITICAL_SECTION →
        version_queries p = O)
     ∧ (primitive (config WIN32_CRITICAL_SECTION windows_10 1) = WIN32_CRITICAL_SECTION →
        ∀ t th, threads p !! t = Some th →
          (pc th = at_winver_query → i th = O)
          ∧ (past_check (pc th) = true ∨ (0 < i th)%nat →
             winver_checked (statics p) = true))).
Proof.
  eexists. split; [vm_compute; reflexivity|]. split; [vm_compute; reflexivity|].
  apply (version_queries_bounded (config WIN32_CRITICAL_SECTION windows_10 1) 2 both_ask);
    vm_compute; reflexivity.
Defined.

(** X9. The two families of builds never mix their mechanisms: a blocking
    build (mutex or critical section) never performs an atomic exchange or
    a spin-wait, and a spin build never calls a blocking acquire. *)
Theorem blocking_builds_never_spin c n schedule p :
  run c schedule (start c n) = Some p →
  if is_spin (primitive c)
  then Forall (fun e => blocking_event (snd e) = false) (log p)
  else Forall (fun e => spin_event (snd e) = false) (log p).
Proof.
  intros R. pose proof (reachable_discipline _ _ _ _ R) as D.
  destruct (is_spin (primitive c)) eqn:Hk;
    [by apply (dis_spinning _ _ D)|by apply (dis_blocking _ _ D)].
Qed.

Lemma blocking_builds_never_spin_witness :
  ∃ p, run (config GCC_SYNC_BUILTIN_AVAILABLE linux 1) contended
           (start (config GCC_SYNC_BUILTIN_AVAILABLE linux 1) 2) = Some p
  ∧ if is_spin (primitive (config GCC_SYNC_BUILTIN_AVAILABLE linux 1))
    then Forall (fun e => blocking_event (snd e) = false) (log p)
    else Forall (fun e => spin_event (snd e) = false) (log p).
Proof.
  eexists. split; [vm_compute; reflexivity|].
  apply (blocking_builds_never_spin (config GCC_SYNC_BUILTIN_AVAILABLE linux 1) 2 contended);
    vm_compute; reflexivity.
Defined.

(** ** The lock object and the critical section *)

Lemma flag_has_holder_exec c p t th q th' :
  flag_has_holder c p → threads p !! t = Some th →
  exec c p t th = returns (q, th') →
  flag_has_holder c (set_threads (<[t:=th']> (threads p)) q).
Proof.
  unfold flag_has_holder. intros Hheld Hth E.
  pose proof (lookup_lt_Some _ _ _ Hth) as Hlen.
  destruct (primitive c) eqn:Hk; try (intros; discriminate).
  all: unfold exec, global_lock_lock, acquire, global_lock_unlock, lock_free in *;
    rewrite ?Hk in *; simpl in *.
  all: destruct (pc th) eqn:Hpc; simpl in *.
  all: split_cases; tidy.
  all: callback_field t.
Qed.

Lemma flag_has_holder_step c p t p' :
  flag_has_holder c p → step c p t = Some p' → flag_has_holder c p'.
Proof.
  intros D (Hrun & th & Hth & [(q & th' & E & ->)|(E & ->)])%step_cases.
  - by eapply flag_has_holder_exec.
  - done.
Qed.

Lemma flag_has_holder_run c schedule : ∀ p p',
  flag_has_holder c p → run c schedule p = Some p' → flag_has_holder c p'.
Proof.
  induction schedule as [|t rest IH]; intros p p' D R; simpl in R.
  - by simplify_eq.
  - destruct (step c p t) as [p1|] eqn:S; [|done].
    eapply IH; [|exact R]. by eapply flag_has_holder_step.
Qed.

Lemma flag_has_holder_start c n : flag_has_holder c (start c n).
Proof. intros Hk. unfold lock_free. simpl. by destruct (primitive c). Qed.

Lemma held_critical c p :
  Invariant c p → flag_has_holder c p →
  held (primitive c) (statics p) = true
  ↔ ∃ t th, threads p !! t = Some th ∧ critical (pc th) = true.
Proof.
  intros I F. split.
  + intros H. destruct (is_spin (primitive c)) eqn:Hk.
    * apply F; [done|]. unfold held, lock_free in *.
      destruct (primitive c); try done; simpl in *;
        first [by rewrite H | by apply negb_true_iff].
    * destruct (owner (primitive c) (statics p)) as [o|] eqn:Ho.
      -- destruct (inv_owner_out _ _ I o Ho) as (th & ? & ?). eauto.
      -- unfold held, owner in *. destruct (primitive c); try done;
           repeat case_match; simplify_eq/=.
  + intros (t & th & Hth & Hc).
    destruct (is_spin (primitive c)) eqn:Hk.
    * destruct (lock_free (primitive c) (statics p)) eqn:Hf.
      -- pose proof (inv_free _ _ I t th Hth Hf). congruence.
      -- unfold held, lock_free in *.
         destruct (primitive c); try done; simpl in *;
           first [by apply negb_false_iff | by rewrite Hf].
    * pose proof (inv_owner_in _ _ I t th Hth Hc Hk) as Ho.
      unfold held, owner in *. destruct (primitive c); try done;
        repeat case_match; simplify_eq/=; done.
Qed.

(** X10. The lock object tells the truth: in every reachable state the
    mutex, critical section or flag is taken exactly when some thread is
    between lock and unlock; on the blocking builds the recorded owner is
    that thread; and the critical section is never entered recursively. *)
Theorem lock_held_iff_critical c n schedule p :
  run c schedule (start c n) = Some p →
  (held (primitive c) (statics p) = true
   ↔ ∃ t th, threads p !! t = Some th ∧ critical (pc th) = true)
  ∧ (∀ t th, threads p !! t = Some th → critical (pc th) = true →
       is_spin (primitive c) = false → owner (primitive c) (statics p) = Some t)
  ∧ (∀ o d, global_lock_lock_cs (statics p) = cs_owned o d → d = O).
Proof.
  intros R. pose proof (reachable_invariant _ _ _ _ R) as I.
  pose proof (flag_has_holder_run c schedule _ _ (flag_has_holder_start c n) R) as F.
  split_and!.
  - by apply held_critical.
  - apply (inv_owner_in _ _ I).
  - apply (inv_recursion _ _ I).
Qed.

Lemma lock_held_iff_critical_witness :
  ∃ p, run (config WIN32_CRITICAL_SECTION windows_10 1) (replicate 7 0%nat)
           (start (config WIN32_CRITICAL_SECTION windows_10 1) 2) = Some p
  ∧ held WIN32_CRITICAL_SECTION (statics p) = true
  ∧ ((held (primitive (config WIN32_CRITICAL_SECTION windows_10 1)) (statics p) = true
      ↔ ∃ t th, threads p !! t = Some th ∧ critical (pc th) = true)
     ∧ (∀ t th, threads p !! t = Some th → critical (pc th) = true →
          is_spin (primitive (config WIN32_CRITICAL_SECTION windows_10 1)) = false →
          owner (primitive (config WIN32_CRITICAL_SECTION windows_10 1)) (statics p)
          = Some t)
     ∧ (∀ o d, global_lock_lock_cs (statics p) = cs_owned o d → d = O)).
Proof.
  eexists. split; [vm_compute; reflexivity|]. split; [vm_compute; reflexivity|].
  apply (lock_held_iff_critical (config WIN32_CRITICAL_SECTION windows_10 1) 2
           (replicate 7 0%nat));
    vm_compute; reflexivity.
Defined.

(** X11. When the acquiring call lets a thread in: in every reachable
    state, a thread at the acquiring call enters the critical section in
    one step if no thread is inside, and the lock is taken afterwards; if a
    thread is inside, the caller cannot move on a blocking build, and on a
    spin build its exchange fails and sends it to [SPIN_WAIT], the flag
    staying set.  The counter is not touched either way. *)
Theorem acquire_passes_iff_free c n schedule p t th :
  run c schedule (start c n) = Some p → running p = true →
  threads p !! t = Some th → pc th = at_acquire →
  ((∃ t' th', threads p !! t' = Some th' ∧ critical (pc th') = true) →
     if is_spin (primitive c)
     then ∃ q, step c p t = Some q
          ∧ threads q = <[t := goto at_spin_wait th]> (threads p)
          ∧ held (primitive c) (statics q) = true
          ∧ counter q = counter p
     else step c p t = None)
  ∧ ((∀ t' th', threads p !! t' = Some th' → critical (pc th') = false) →
     ∃ q, step c p t = Some q
     ∧ threads q = <[t := goto at_read th]> (threads p)
     ∧ held (primitive c) (statics q) = true
     ∧ counter q = counter p).
Proof.
  intros R Hrun Hth Hpc.
  pose proof (reachable_invariant _ _ _ _ R) as I.
  pose proof (flag_has_holder_run c schedule _ _ (flag_has_holder_start c n) R) as F.
  pose proof (held_critical c p I F) as Hh.
  assert (past_guard (pc th) = true) as Hpg by (by rewrite Hpc).
  pose proof (inv_past _ _ I t th Hth Hpg) as Ho.
  pose proof (inv_complete _ _ I) as Hco.
  pose proof (inv_pthread _ _ I) as Hpt.
  pose proof (inv_owner_out _ _ I) as Hout.
  unfold step. rewrite Hrun, Hth. unfold exec, global_lock_lock. rewrite Hpc.
  split.
  - intros Hc. apply Hh in Hc.
    destruct (is_spin (primitive c)) eqn:Hk.
    + unfold acquire, held in *. destruct (primitive c); try done; simpl in *.
      * rewrite Hc. simpl. eexists. split; [done|]. by split_and!.
      * rewrite Hc. simpl. eexists. split; [done|]. by split_and!.
      * rewrite Hc. simpl. eexists. split; [done|]. by split_and!.
    + assert (∃ o, owner (primitive c) (statics p) = Some o ∧ o ≠ t) as (o & Hown & Hne).
      { unfold held, owner in *. destruct (primitive c); try done;
          repeat case_match; simplify_eq/=.
        all: match goal with
             | |- ∃ o, Some ?x = Some o ∧ _ =>
                 exists x; split; [done|]; intros ->;
                 destruct (Hout t eq_refl) as (th0 & Hth0 & Hcr0); simplify_eq;
                 by rewrite Hpc in Hcr0
             end. }
      unfold acquire, owner, mtx_lock, EnterCriticalSection in *.
      destruct (primitive c); try done; split_cases; done.
  - intros Hnone.
    assert (held (primitive c) (statics p) = false) as Hf.
    { destruct (held (primitive c) (statics p)); [|done].
      destruct (proj1 Hh eq_refl) as (t' & th' & Hth' & Hcr').
      by rewrite (Hnone t' th' Hth') in Hcr'. }
    unfold acquire, held, usable, once_of, mtx_lock, EnterCriticalSection in *.
    destruct (primitive c) eqn:Hk; simpl in *.
    + destruct Ho as [Ho|Ho]; [done|]. destruct (Hco Ho) as [Hus _].
      destruct (global_lock_lock_mutex (statics p)); try done.
      eexists. split; [done|]. by split_and!.
    + specialize (Hpt eq_refl).
      destruct (global_lock_lock_mutex (statics p)); try done.
      eexists. split; [done|]. by split_and!.
    + destruct Ho as [Ho|Ho]; [done|]. destruct (Hco Ho) as [Hus _].
      destruct (global_lock_lock_cs (statics p)); try done.
      eexists. split; [done|]. by split_and!.
    + rewrite Hf. simpl. eexists. split; [done|]. by split_and!.
    + apply negb_false_iff in Hf. rewrite Hf. simpl. eexists. split; [done|]. by split_and!.
    + apply negb_false_iff in Hf. rewrite Hf. simpl. eexists. split; [done|]. by split_and!.
Qed.

Lemma acquire_passes_iff_free_witness :
  ∃ p, run (config PTHREAD_AVAILABLE linux 1) lock_taken
           (start (config PTHREAD_AVAILABLE linux 1) 2) = Some p
  ∧ (((∃ t' th', threads p !! t' = Some th' ∧ critical (pc th') = true) →
        if is_spin (primitive (config PTHREAD_AVAILABLE linux 1))
        then ∃ q, step (config PTHREAD_AVAILABLE linux 1) p 1%nat = Some q
             ∧ threads q = <[1%nat := goto at_spin_wait (goto at_acquire new_thread)]> (threads p)
             ∧ held (primitive (config PTHREAD_AVAILABLE linux 1)) (statics q) = true
             ∧ counter q = counter p
        else step (config PTHREAD_AVAILABLE linux 1) p 1%nat = None)
     ∧ ((∀ t' th', threads p !! t' = Some th' → critical (pc th') = false) →
        ∃ q, step (config PTHREAD_AVAILABLE linux 1) p 1%nat = Some q
        ∧ threads q = <[1%nat := goto at_read (goto at_acquire new_thread)]> (threads p)
        ∧ held (primitive (config PTHREAD_AVAILABLE linux 1)) (statics q) = true
        ∧ counter q = counter p)).
Proof.
  eexists. split; [vm_compute; reflexivity|].
  apply (acquire_passes_iff_free (config PTHREAD_AVAILABLE linux 1) 2 lock_taken _
           1%nat (goto at_acquire new_thread));
    vm_compute; reflexivity.
Defined.

Lemma Balanced_exec c p t th q th' :
  Invariant c p → flag_has_holder c p → Balanced c p →
  threads p !! t = Some th → exec c p t th = returns (q, th') →
  Balanced c (set_threads (<[t:=th']> (threads p)) q).
Proof.
  intros I F [Ha Hr] Hth E.
  pose proof (sum_list_with_insert i _ t th th' Hth) as Hsum.
  assert (owner (primitive c) (statics p) = Some t → critical (pc th) = true) as Hown.
  { intros Ho. destruct (inv_owner_out _ _ I t Ho) as (th0 & Hth0 & Hc). by simplify_eq. }
  assert (critical (pc th) = true → held (primitive c) (statics p) = true) as Hheld.
  { intros Hc. apply (held_critical c p I F). eauto. }
  pose proof (inv_recursion _ _ I) as Hrec.
  assert (pc th = at_init → raw (primitive c) (statics p) = true) as Hraw.
  { intros Hpc. by destruct (inv_init _ _ I t th Hth Hpc) as (_ & ? & _). }
  unfold Balanced, acquisitions, releases in *.
  unfold exec, global_lock_lock, acquire, global_lock_unlock, InitCriticalSection,
    init_mtx, mtx_init, InitializeCriticalSection, mtx_lock, mtx_unlock,
    EnterCriticalSection, LeaveCriticalSection, held, owner, raw in *.
  destruct (pc th) eqn:Hpc, (primitive c) eqn:Hk; simpl in *.
  all: split_cases; tidy; simpl in *.
  all: repeat case_bool_decide; simplify_eq/=; try done.
  all: try (split; lia).
Qed.

Lemma Balanced_run c schedule : ∀ p p',
  Invariant c p → flag_has_holder c p → Balanced c p →
  run c schedule p = Some p' → Balanced c p'.
Proof.
  induction schedule as [|t rest IH]; intros p p' I F B R; simpl in R.
  - by simplify_eq.
  - destruct (step c p t) as [p1|] eqn:S; [|done].
    apply (IH p1 p'); [by eapply Invariant_step|by eapply flag_has_holder_step| |done].
    apply step_cases in S as (_ & th & Hth & [(q & th' & E & ->)|(E & ->)]).
    + by eapply Balanced_exec.
    + done.
Qed.

(** X17. Lock and unlock alternate: in every reachable state the number of
    successful acquisitions is the number of releases, plus one exactly
    while the lock is taken; and the number of releases is the number of
    lock/unlock pairs the threads have completed. *)
Theorem lock_and_unlock_alternate c n schedule p :
  run c schedule (start c n) = Some p →
  acquisitions p
  = (releases p + (if held (primitive c) (statics p) then 1 else 0))%nat
  ∧ releases p = sum_list_with i (threads p).
Proof.
  apply Balanced_run.
  - apply Invariant_start.
  - apply flag_has_holder_start.
  - split; simpl.
    + unfold held. by destruct (primitive c).
    + unfold releases. simpl. induction n; simpl; lia.
Qed.

Lemma lock_and_unlock_alternate_witness :
  ∃ p, run (config STDSTOMIC_AVAILABLE linux 1) contended
           (start (config STDSTOMIC_AVAILABLE linux 1) 2) = Some p
  ∧ acquisitions p = 2%nat
  ∧ (acquisitions p
     = (releases p
        + (if held (primitive (config STDSTOMIC_AVAILABLE linux 1)) (statics p)
           then 1 else 0))%nat
     ∧ releases p = sum_list_with i (threads p)).
Proof.
  eexists. split; [vm_compute; reflexivity|]. split; [vm_compute; reflexivity|].
  apply (lock_and_unlock_alternate (config STDSTOMIC_AVAILABLE linux 1) 2 contended);
    vm_compute; reflexivity.
Defined.

Lemma increments_bounded c p :
  Invariant c p →
  (sum_list_with increments (threads p) ≤ length (threads p) * iterations c)%nat.
Proof.
  intros I.
  assert (∀ t th, threads p !! t = Some th → (increments th ≤ iterations c)%nat) as H.
  { intros t th Hth. pose proof (inv_bound _ _ I t th Hth) as Hb.
    unfold increments. case_bool_decide as Hpc; [rewrite Hpc in Hb|destruct (pc th)]; lia. }
  induction (threads p) as [|th ths IH]; simpl; [lia|].
  pose proof (H 0%nat th eq_refl).
  assert (sum_list_with increments ths ≤ length ths * iterations c)%nat; [|lia].
  apply IH. intros t th' Hth'. by apply (H (S t)).
Qed.

(** X18. The data the lock protects is exact at every moment, not only at
    the end: in every reachable state the counter is the number of
    increments completed so far, a thread about to store holds the current
    value and not a stale one, and the counter never exceeds [n * N]. *)
Theorem counter_is_exact c n schedule p :
  run c schedule (start c n) = Some p →
  counter p = sum_list_with increments (threads p)
  ∧ (∀ t th, threads p !! t = Some th → pc th = at_write → tmp th = counter p)
  ∧ (counter p ≤ n * iterations c)%nat.
Proof.
  intros R. pose proof (reachable_invariant _ _ _ _ R) as I.
  split_and!.
  - apply (inv_counter _ _ I).
  - apply (inv_tmp _ _ I).
  - rewrite (inv_counter _ _ I).
    pose proof (increments_bounded c p I) as H.
    rewrite (run_length _ _ _ _ R) in H. simpl in H.
    by rewrite length_replicate in H.
Qed.

Lemma counter_is_exact_witness :
  ∃ p, run (config GCC_ATOMIC_BUILTIN_AVAILABLE linux 2) contended
           (start (config GCC_ATOMIC_BUILTIN_AVAILABLE linux 2) 2) = Some p
  ∧ (counter p = sum_list_with increments (threads p)
     ∧ (∀ t th, threads p !! t = Some th → pc th = at_write → tmp th = counter p)
     ∧ (counter p ≤ 2 * iterations (config GCC_ATOMIC_BUILTIN_AVAILABLE linux 2))%nat).
Proof.
  eexists. split; [vm_compute; reflexivity|].
  apply (counter_is_exact (config GCC_ATOMIC_BUILTIN_AVAILABLE linux 2) 2 contended);
    vm_compute; reflexivity.
Defined.

(** ** Progress *)

Lemma step_enabled c p t th :
  running p = true → threads p !! t = Some th →
  exec c p t th ≠ blocks → ∃ q, step c p t = Some q.
Proof.
  intros R L E. unfold step. rewrite R, L.
  destruct (exec c p t th) as [[q th']| |]; [eauto|done|eauto].
Qed.

Lemma exec_enabled c p t th :
  point_of_build (primitive c) (pc th) = true →
  pc th ≠ at_end → pc th ≠ at_exit → pc th ≠ at_once → pc th ≠ at_acquire →
  exec c p t th ≠ blocks.
Proof.
  unfold exec, global_lock_lock, global_lock_unlock, InitCriticalSection,
    InitializeCriticalSection, mtx_unlock, LeaveCriticalSection, once_of.
  destruct (pc th), (primitive c); simpl; intros ? ? ? ? ? E; try done;
    repeat case_match; simplify_eq/=; done.
Qed.

Lemma not_all_ended p :
  all_ended p = false → ∃ t th, threads p !! t = Some th ∧ pc th ≠ at_end.
Proof.
  unfold all_ended. induction (threads p) as [|th ths IH]; simpl; [done|].
  case_bool_decide as Hpc; simpl.
  - intros (t & th0 & ? & ?)%IH. by exists (S t), th0.
  - intros _. by exists 0%nat, th.
Qed.

(** X12. No deadlock: in every reachable state of a process that has not
    exited, on every build and platform, some thread can take a step
    unless all threads have finished their loop. *)
Theorem deadlock_freedom c n schedule p :
  run c schedule (start c n) = Some p →
  running p = true → all_ended p = false →
  ∃ t q, step c p t = Some q.
Proof.
  intros R Hrun (t & th & Hth & Hend)%not_all_ended.
  pose proof (reachable_invariant _ _ _ _ R) as I.
  pose proof (reachable_discipline _ _ _ _ R) as D.
  assert (exit_status p = None) as Hexit.
  { unfold running in Hrun. by destruct (exit_status p). }
  assert (∀ t1 th1, threads p !! t1 = Some th1 →
            pc th1 ≠ at_end → pc th1 ≠ at_once → pc th1 ≠ at_acquire →
            ∃ t q, step c p t = Some q) as Hmove.
  { intros t1 th1 Hth1 ? ? ?. exists t1.
    eapply step_enabled; [done..|]. apply exec_enabled; try done.
    - by apply (inv_points _ _ I t1).
    - intros Hx. pose proof (dis_exit_point _ _ D t1 th1 Hth1 Hx). congruence. }
  destruct (decide (pc th = at_once)) as [Honce|].
  { pose proof (inv_points _ _ I t th Hth) as Hp. rewrite Honce in Hp. simpl in Hp.
    destruct (once_of (primitive c) (statics p)) as [[]|] eqn:Ho.
    - exists t. eapply step_enabled; [done..|].
      unfold exec, global_lock_lock. by rewrite Honce, Ho.
    - destruct (dis_callback _ _ D Hexit Ho) as (t1 & th1 & Hth1 & Hcb).
      apply (Hmove t1 th1 Hth1); intros Hx; by rewrite Hx in Hcb.
    - exists t. eapply step_enabled; [done..|].
      unfold exec, global_lock_lock. by rewrite Honce, Ho.
    - unfold once_of in *. by destruct (primitive c). }
  destruct (decide (pc th = at_acquire)) as [Hacq|]; [|by eapply Hmove].
  destruct (acquire (primitive c) t p) as [[q b]| |] eqn:A.
  - exists t. eapply step_enabled; [done..|].
    unfold exec, global_lock_lock. rewrite Hacq, A. by destruct b.
  - assert (∃ o, owner (primitive c) (statics p) = Some o) as [o Ho].
    { unfold acquire, owner, mtx_lock, EnterCriticalSection in *.
      destruct (primitive c); repeat case_match; simplify_eq/=; eauto. }
    destruct (inv_owner_out _ _ I o Ho) as (th1 & Hth1 & Hc).
    apply (Hmove o th1 Hth1); intros Hx; by rewrite Hx in Hc.
  - exists t. eapply step_enabled; [done..|].
    unfold exec, global_lock_lock. by rewrite Hacq, A.
Qed.

Lemma deadlock_freedom_witness :
  ∃ p, run (config PTHREAD_AVAILABLE linux 1) lock_taken
           (start (config PTHREAD_AVAILABLE linux 1) 2) = Some p
  ∧ step (config PTHREAD_AVAILABLE linux 1) p 1%nat = None
  ∧ ∃ t q, step (config PTHREAD_AVAILABLE linux 1) p t = Some q.
Proof.
  eexists. split; [vm_compute; reflexivity|]. split; [vm_compute; reflexivity|].
  apply (deadlock_freedom (config PTHREAD_AVAILABLE linux 1) 2 lock_taken);
    vm_compute; reflexivity.
Defined.

Lemma finish_call c p t th :
  healthy c = true → running p = true →
  ready (primitive c) (statics p) = true →
  threads p !! t = Some th → waiting c p th →
  pc th ≠ at_loop → pc th ≠ at_end →
  ∃ schedule q tmp', run c schedule p = Some q
  ∧ running q = true ∧ ready (primitive c) (statics q) = true
  ∧ threads q = <[t := {| pc := at_loop; i := S (i th); tmp := tmp' |}]> (threads p).
Proof.
  intros Hc Hrun Hready Hth Hw Hl He.
  pose proof (lookup_lt_Some _ _ _ Hth) as Hlen.
  destruct th as [pt j x]. unfold waiting in Hw. simpl in *.
  destruct p as [[mx o1 o2 cs wv fl n] cnt err ex ud lg ths].
  unfold running, healthy, once_of in *. simpl in *.
  destruct ex; [done|]. destruct ud; [done|]. clear Hrun.
  destruct pt; try done; destruct Hw as [Hw Hlt];
    destruct (primitive c) eqn:Hk; simpl in *; try done.
  all: try (destruct (mtx_init_result (platform c)) eqn:Hinit; try done).
  all: try (destruct Hw as [Hw|Hw]; simplify_eq).
  all: repeat match goal with
       | H : context [match ?x with _ => _ end] |- _ => is_var x; destruct x; try done
       end.
  all: try match goal with
       | H : (?n =? 0) = true |- _ => apply Z.eqb_eq in H; subst n
       end.
  all: destruct wv.
  all: try match goal with
       | H : negb ?b = true |- _ => apply negb_true_iff in H; subst b
       end.
  all: eexists; eexists; eexists; split;
       [ repeat advance Hk; apply run_nil
       | normalize; rewrite ?list_insert_insert_eq; split_and!; reflexivity ].
Qed.

Lemma run_keeps_once c schedule : ∀ p q,
  run c schedule p = Some q →
  once_of (primitive c) (statics p) = None
  ∨ once_of (primitive c) (statics p) = Some once_complete →
  once_of (primitive c) (statics q) = None
  ∨ once_of (primitive c) (statics q) = Some once_complete.
Proof.
  induction schedule as [|t rest IH]; intros p q R; simpl in R.
  - by simplify_eq.
  - destruct (step c p t) as [p1|] eqn:S; [|done].
    intros H. apply (IH _ _ R).
    destruct H as [H|H].
    + left. unfold once_of in *. by destruct (primitive c).
    + right. by apply (step_keeps_initialisation _ _ _ _ S).
Qed.

Lemma waiting_run c schedule p q th :
  run c schedule p = Some q → waiting c p th → waiting c q th.
Proof.
  intros R. unfold waiting. destruct (pc th); try done.
  - intros [H ?]. split; [|done]. unfold once_of in *. by destruct (primitive c).
  - intros [H ?]. split; [|done]. by eapply run_keeps_once.
Qed.

Lemma finish_waiting c p t th :
  healthy c = true → running p = true →
  ready (primitive c) (statics p) = true →
  threads p !! t = Some th → waiting c p th →
  ∃ schedule q th', run c schedule p = Some q
  ∧ running q = true ∧ ready (primitive c) (statics q) = true
  ∧ threads q = <[t := th']> (threads p) ∧ pc th' = at_end.
Proof.
  intros Hc Hrun Hready Hth Hw.
  destruct (decide (pc th = at_end)) as [He|He].
  { exists [], p, th. split_and!; try done. by rewrite list_insert_id. }
  destruct (decide (pc th = at_loop)) as [Hl|Hl].
  { unfold waiting in Hw. rewrite Hl in Hw.
    apply (finish_thread c (iterations c - i th) p t th); try done. lia. }
  destruct (finish_call c p t th Hc Hrun Hready Hth Hw Hl He)
    as (s1 & q1 & x & R1 & Hrun1 & Hready1 & T1).
  assert (i th < iterations c)%nat as Hlt.
  { unfold waiting in Hw. destruct (pc th); try done; by destruct Hw. }
  assert (threads q1 !! t = Some {| pc := at_loop; i := S (i th); tmp := x |}) as Hth1.
  { rewrite T1. apply list_lookup_insert_eq. by eapply lookup_lt_Some. }
  destruct (finish_thread c (iterations c - S (i th)) q1 t _ Hc Hrun1 Hready1 Hth1 eq_refl)
    as (s2 & q & th' & R2 & ? & ? & T2 & ?); [simpl; lia|].
  exists (s1 ++ s2)%list, q, th'. split_and!; try done.
  - by eapply run_app.
  - by rewrite T2, T1, list_insert_insert_eq.
Qed.

Lemma finish_all_waiting c : ∀ k a p,
  healthy c = true → running p = true →
  ready (primitive c) (statics p) = true →
  (a + k = length (threads p))%nat →
  (∀ t th, threads p !! t = Some th → (t < a)%nat → pc th = at_end) →
  (∀ t th, threads p !! t = Some th → (a ≤ t)%nat → waiting c p th) →
  ∃ schedule q, run c schedule p = Some q ∧ all_ended q = true.
Proof.
  induction k as [|k IH]; intros a p Hc Hrun Hready Hlen Hdone Htodo.
  - exists [], p. split; [done|]. unfold all_ended. apply forallb_forall.
    intros th [t Hth]%list_elem_of_In%list_elem_of_lookup.
    apply bool_decide_eq_true_2, (Hdone t th Hth).
    apply lookup_lt_Some in Hth. lia.
  - destruct (lookup_lt_is_Some_2 (threads p) a) as [th Hth]; [lia|].
    assert (waiting c p th) as Hw by (eapply Htodo; [done|lia]).
    destruct (finish_waiting c p a th Hc Hrun Hready Hth Hw)
      as (s1 & q1 & th' & R1 & Hrun1 & Hready1 & T1 & Hend).
    destruct (IH (S a) q1 Hc Hrun1 Hready1) as (s2 & q & R2 & E).
    + rewrite T1, length_insert. lia.
    + intros t th0. rewrite T1. intros [(<- & <- & _)|(Hne & Hl)]%list_lookup_insert_Some Ht.
      * done.
      * eapply Hdone; [done|lia].
    + intros t th0. rewrite T1. intros [(<- & <- & _)|(Hne & Hl)]%list_lookup_insert_Some Ht.
      * lia.
      * eapply waiting_run; [exact R1|]. eapply Htodo; [done|lia].
    + exists (s1 ++ s2)%list, q. split; [by eapply run_app|done].
Qed.

Lemma leave c p t th :
  healthy c = true → running p = true → threads p !! t = Some th →
  point_of_build (primitive c) (pc th) = true →
  (i th < iterations c)%nat →
  (in_callback (pc th) = true ∨ critical (pc th) = true) →
  (in_callback (pc th) = true →
     once_of (primitive c) (statics p) = Some once_running
     ∧ held (primitive c) (statics p) = false
     ∧ (pc th = at_init → raw (primitive c) (statics p) = true)
     ∧ (pc th = at_once_return → usable (primitive c) (statics p) = true)) →
  (critical (pc th) = true →
     (once_of (primitive c) (statics p) = None
      ∨ once_of (primitive c) (statics p) = Some once_complete)
     ∧ (is_spin (primitive c) = false → owner (primitive c) (statics p) = Some t)
     ∧ (∀ o n, global_lock_lock_cs (statics p) = cs_owned o n → n = O)) →
  ∃ schedule q, run c schedule p = Some q
  ∧ ready (primitive c) (statics q) = true.
Proof.
  intros Hc Hrun Hth Hpt Hlt Hin Hcb Hcr.
  pose proof (lookup_lt_Some _ _ _ Hth) as Hlen.
  destruct th as [pt j x].
  destruct p as [[mx o1 o2 cs wv fl n] cnt err ex ud lg ths].
  unfold running, healthy, once_of, held, raw, usable, owner in *. simpl in *.
  destruct ex; [done|]. destruct ud; [done|]. clear Hrun.
  destruct Hin as [Hin|Hin]; destruct pt; try done; clear Hin;
    [ clear Hcr; destruct Hcb as (Ho & Hh & Hraw & Hus); [done|]
    | clear Hcr; destruct Hcb as (Ho & Hh & Hraw & Hus); [done|]
    | clear Hcb; destruct Hcr as (Ho & Hown & Hrec); [done|]
    | clear Hcb; destruct Hcr as (Ho & Hown & Hrec); [done|]
    | clear Hcb; destruct Hcr as (Ho & Hown & Hrec); [done|] ].
  all: destruct (primitive c) eqn:Hk; simpl in *; try done.
  all: try (destruct (mtx_init_result (platform c)) eqn:Hinit; try done).
  all: try specialize (Hraw eq_refl); try specialize (Hus eq_refl);
       try specialize (Hown eq_refl).
  all: try (destruct Ho as [Ho|Ho]); simplify_eq.
  all: try (destruct mx; try done); try (destruct cs; try done); simplify_eq.
  all: try (rewrite (Hrec _ _ eq_refl)).
  all: eexists; eexists; split;
       [ repeat advance Hk; apply run_nil | normalize; reflexivity ].
Qed.

Lemma not_ready c p :
  Invariant c p → Discipline c p → flag_has_holder c p → running p = true →
  ready (primitive c) (statics p) = false →
  ∃ t th, threads p !! t = Some th
  ∧ (in_callback (pc th) = true ∨ critical (pc th) = true).
Proof.
  intros I D F Hrun Hready.
  assert (exit_status p = None) as Hex.
  { unfold running in Hrun. by destruct (exit_status p). }
  destruct (held (primitive c) (statics p)) eqn:Hh.
  { apply (held_critical c p I F) in Hh as (t & th & ? & ?). eauto. }
  destruct (once_of (primitive c) (statics p)) as [[]|] eqn:Ho.
  - destruct (inv_fresh _ _ I Ho) as [Hraw _].
    unfold ready, raw, once_of in *. destruct (primitive c); try done;
      repeat case_match; simplify_eq/=.
  - destruct (dis_callback _ _ D Hex Ho) as (t & th & ? & ?). eauto.
  - destruct (inv_complete _ _ I Ho) as [Hus _].
    unfold ready, usable, held, once_of in *. destruct (primitive c); try done;
      repeat case_match; simplify_eq/=.
  - destruct (primitive c) eqn:Hk; try done.
    + pose proof (inv_pthread _ _ I Hk) as Hus. rewrite Hk in Hus.
      unfold ready, usable, held in *. repeat case_match; simplify_eq/=.
    + unfold ready, held in *. simpl in *. by rewrite Hh in Hready.
    + unfold ready, held in *. simpl in *. by destruct (_ =? _).
    + unfold ready, held in *. simpl in *. by destruct (_ =? _).
Qed.

Lemma settle c p :
  healthy c = true → running p = true →
  Invariant c p → Discipline c p → flag_has_holder c p →
  ∃ schedule q, run c schedule p = Some q
  ∧ ready (primitive c) (statics q) = true.
Proof.
  intros Hc Hrun I D F.
  destruct (ready (primitive c) (statics p)) eqn:Hready.
  { by exists [], p. }
  destruct (not_ready c p I D F Hrun Hready) as (t & th & Hth & Hin).
  assert (pc th ≠ at_loop ∧ pc th ≠ at_end) as [Hl He].
  { destruct Hin; destruct (pc th); done. }
  apply (leave c p t th); try done.
  - apply (inv_points _ _ I t th Hth).
  - pose proof (inv_bound _ _ I t th Hth). by destruct (pc th).
  - intros Hcb.
    assert (once_of (primitive c) (statics p) = Some once_running) as Ho.
    { destruct (pc th) eqn:Hpc; try done.
      - by destruct (inv_init _ _ I t th Hth Hpc).
      - by destruct (inv_return _ _ I t th Hth Hpc). }
    split_and!;
      [ done | 
      | intros Hpc; by destruct (inv_init _ _ I t th Hth Hpc) as (_ & ? & _)
      | intros Hpc; by destruct (inv_return _ _ I t th Hth Hpc) as (_ & ? & _) ].
    destruct (held (primitive c) (statics p)) eqn:Hh; [|done].
    apply (held_critical c p I F) in Hh as (t' & th' & Hth' & Hcr).
    assert (past_guard (pc th') = true) as Hpg by (by destruct (pc th')).
    destruct (inv_past _ _ I t' th' Hth' Hpg); congruence.
  - intros Hcr. split_and!.
    + apply (inv_past _ _ I t th Hth). by destruct (pc th).
    + by apply (inv_owner_in _ _ I t th Hth).
    + apply (inv_recursion _ _ I).
Qed.

Lemma ready_waiting c p :
  Invariant c p → Discipline c p → running p = true →
  ready (primitive c) (statics p) = true →
  ∀ t th, threads p !! t = Some th → waiting c p th.
Proof.
  intros I D Hrun Hready t th Hth.
  pose proof (inv_points _ _ I t th Hth) as Hpt.
  pose proof (inv_bound _ _ I t th Hth) as Hb.
  assert (critical (pc th) = false) as Hcr.
  { destruct (critical (pc th)) eqn:Hcr; [|done].
    rewrite <- Hcr. apply (inv_free _ _ I t th Hth).
    assert (past_guard (pc th) = true) as Hpg by (by destruct (pc th)).
    pose proof (inv_past _ _ I t th Hth Hpg) as Ho.
    unfold ready, lock_free, once_of in *. destruct (primitive c); try done;
      repeat case_match; destruct Ho; simplify_eq/=; done. }
  assert (once_of (primitive c) (statics p) ≠ Some once_running) as Ho.
  { unfold ready, once_of in *. destruct (primitive c); try done;
      repeat case_match; simplify_eq/=; done. }
  unfold waiting. destruct (pc th) eqn:Hpc; simpl in *; try done.
  - split; [|done]. by case_bool_decide.
  - split; [|done]. by case_bool_decide.
  - split; [|done]. unfold once_of in *. by destruct (primitive c).
  - by destruct (inv_init _ _ I t th Hth Hpc).
  - by destruct (inv_return _ _ I t th Hth Hpc).
  - split; [|done]. apply (inv_past _ _ I t th Hth). by rewrite Hpc.
  - pose proof (dis_exit_point _ _ D t th Hth Hpc) as Hex.
    unfold running in Hrun. by rewrite Hex in Hrun.
Qed.

(** X13. The lock can always be got out of: where [mtx_init] succeeds and
    Windows is Vista or later, every state the threads can reach, under
    whatever interleaving, has a continuation in which all threads finish
    their loops, with the counter at [n * N].  No reachable state is a
    dead end. *)
Theorem every_reachable_state_can_finish c n schedule p :
  healthy c = true → run c schedule (start c n) = Some p →
  ∃ rest q, run c rest p = Some q ∧ all_ended q = true
  ∧ counter q = (n * iterations c)%nat.
Proof.
  intros Hc R.
  pose proof (reachable_invariant _ _ _ _ R) as I.
  pose proof (reachable_discipline _ _ _ _ R) as D.
  pose proof (flag_has_holder_run c schedule _ _ (flag_has_holder_start c n) R) as F.
  assert (∀ q, Invariant c q → Discipline c q → running q = true) as Hrunning.
  { intros q Iq Dq. unfold running.
    by rewrite (dis_healthy _ _ Dq Hc), (inv_defined _ _ Iq). }
  destruct (settle c p Hc (Hrunning p I D) I D F) as (s1 & q1 & R1 & Hready).
  pose proof (Invariant_run c s1 _ _ I R1) as I1.
  pose proof (Discipline_run c s1 _ _ D R1) as D1.
  destruct (finish_all_waiting c (length (threads q1)) 0 q1 Hc (Hrunning q1 I1 D1) Hready)
    as (s2 & q & R2 & E); [done|intros; lia| |].
  { intros t th Hth _. by eapply (ready_waiting c q1 I1 D1 (Hrunning q1 I1 D1) Hready). }
  exists (s1 ++ s2)%list, q. split_and!; [by eapply run_app|done|].
  pose proof (run_app c _ _ _ _ _ R1 R2) as R12.
  pose proof (run_app c _ _ _ _ _ R R12) as Rall.
  pose proof (reachable_invariant _ _ _ _ Rall) as Iq.
  rewrite (inv_counter _ _ Iq), (ended_increments c q Iq E).
  rewrite (run_length _ _ _ _ Rall). simpl. by rewrite length_replicate.
Qed.

Lemma every_reachable_state_can_finish_witness :
  ∃ p, run (config GCC_SYNC_BUILTIN_AVAILABLE linux 3) contended
           (start (config GCC_SYNC_BUILTIN_AVAILABLE linux 3) 2) = Some p
  ∧ ∃ rest q, run (config GCC_SYNC_BUILTIN_AVAILABLE linux 3) rest p = Some q
    ∧ all_ended q = true
    ∧ counter q = (2 * iterations (config GCC_SYNC_BUILTIN_AVAILABLE linux 3))%nat.
Proof.
  eexists. split; [vm_compute; reflexivity|].
  apply (every_reachable_state_can_finish (config GCC_SYNC_BUILTIN_AVAILABLE linux 3) 2
           contended);
    vm_compute; reflexivity.
Defined.

(** ** Shutdown *)

(** X14. [global_lock_quit] before the first call of the lock function: on
    the C11 and Windows builds it hands storage that was never initialised
    to [mtx_destroy] and [DeleteCriticalSection], which is undefined; on
    the POSIX build it destroys the statically initialised mutex; on the
    spin builds it does nothing. *)
Theorem quit_before_first_lock c n :
  global_lock_quit (primitive c) (start c n) =
  match primitive c with
  | C11_THREADS_AVAILABLE | WIN32_CRITICAL_SECTION => undefined_behaviour
  | PTHREAD_AVAILABLE => returns (with_statics (set_mutex mtx_destroyed) (start c n))
  | _ => returns (start c n)
  end.
Proof. by destruct c as [[] ? ? ?]. Qed.

Lemma shut_down_step c p t q :
  shut_down (primitive c) p → step c p t = Some q → shut_down (primitive c) q.
Proof.
  intros (U & O & T) (_ & th & Hth & [(q0 & th' & E & ->)|(E & ->)])%step_cases;
    [|done].
  pose proof (T t th Hth) as Hcb.
  assert (usable (primitive c) (statics q0) = false
          ∧ (once_of (primitive c) (statics q0) = None
             ∨ once_of (primitive c) (statics q0) = Some once_complete)
          ∧ in_callback (pc th') = false) as (U' & O' & T').
  { unfold exec, global_lock_lock, acquire, global_lock_unlock, InitCriticalSection,
      init_mtx, mtx_init, InitializeCriticalSection, mtx_lock, mtx_unlock,
      EnterCriticalSection, LeaveCriticalSection, once_of, usable in *.
    destruct (pc th), (primitive c); simpl in *; try done;
      repeat case_match; simplify_eq/=; try done;
      tidy; split_and!; tidy; auto; congruence. }
  split_and!; simpl; try done.
  intros t0 th0 [(<- & <- & _)|(Hne & Hl)]%list_lookup_insert_Some; eauto.
Qed.

Lemma shut_down_run c schedule : ∀ p q,
  shut_down (primitive c) p → run c schedule p = Some q → shut_down (primitive c) q.
Proof.
  induction schedule as [|t rest IH]; intros p q H R; simpl in R.
  - by simplify_eq.
  - destruct (step c p t) as [p1|] eqn:S; [|done].
    eapply IH; [|exact R]. by eapply shut_down_step.
Qed.

(** X15. Nothing works after [global_lock_quit] on a blocking build, and
    nothing brings the lock back: the lock object is not usable, a second
    [global_lock_quit], an unlock and an acquiring call are each undefined
    behaviour, and since the once-guard stays completed no later call of
    the lock function constructs the object again. *)
Theorem no_use_after_quit c p q :
  is_spin (primitive c) = false →
  global_lock_quit (primitive c) p = returns q →
  usable (primitive c) (statics q) = false
  ∧ global_lock_quit (primitive c) q = undefined_behaviour
  ∧ (∀ self, global_lock_unlock (primitive c) self q = undefined_behaviour)
  ∧ (∀ self th, running q = true → threads q !! self = Some th →
       pc th = at_acquire → step c q self = Some (undefined_from_here q))
  ∧ ((once_of (primitive c) (statics p) = None
      ∨ once_of (primitive c) (statics p) = Some once_complete) →
     (∀ t th, threads p !! t = Some th → in_callback (pc th) = false) →
     ∀ schedule r, run c schedule q = Some r →
       usable (primitive c) (statics r) = false).
Proof.
  intros Hk Q.
  assert (usable (primitive c) (statics q) = false
          ∧ once_of (primitive c) (statics q) = once_of (primitive c) (statics p)
          ∧ threads q = threads p
          ∧ (∀ self, acquire (primitive c) self q = undefined_behaviour))
    as (U & O & T & A).
  { unfold global_lock_quit, mtx_destroy, DeleteCriticalSection, usable, acquire in *.
    destruct (primitive c); try discriminate Hk;
      repeat case_match; simplify_eq/=; done. }
  split_and!; try done.
  - unfold global_lock_quit, mtx_destroy, DeleteCriticalSection in *.
    destruct (primitive c); try discriminate Hk;
      repeat case_match; simplify_eq/=; done.
  - intros self. unfold global_lock_quit, mtx_destroy, DeleteCriticalSection,
      global_lock_unlock in *.
    destruct (primitive c); try discriminate Hk;
      repeat case_match; simplify_eq/=; done.
  - intros self th Hrun Hth Hpc. unfold step, exec, global_lock_lock.
    by rewrite Hrun, Hth, Hpc, A.
  - intros Ho Hcb schedule r R.
    apply (shut_down_run c schedule q r); [|done].
    split_and!; [done| by rewrite O | by rewrite T].
Qed.

Lemma no_use_after_quit_witness :
  usable PTHREAD_AVAILABLE
    (statics (with_statics (set_mutex mtx_destroyed)
                (start (config PTHREAD_AVAILABLE linux 1) 2))) = false
  ∧ global_lock_quit PTHREAD_AVAILABLE
      (with_statics (set_mutex mtx_destroyed) (start (config PTHREAD_AVAILABLE linux 1) 2))
    = undefined_behaviour.
Proof.
  pose proof (no_use_after_quit (config PTHREAD_AVAILABLE linux 1)
                (start (config PTHREAD_AVAILABLE linux 1) 2)
                (with_statics (set_mutex mtx_destroyed)
                   (start (config PTHREAD_AVAILABLE linux 1) 2))
                eq_refl eq_refl) as (H1 & H2 & _).
  exact (conj H1 H2).
Defined.

Lemma shutdown_after_run_witness :
  ∃ p, run (config C11_THREADS_AVAILABLE linux 1) (one_after_the_other 9 7)
           (start (config C11_THREADS_AVAILABLE linux 1) 2) = Some p
  ∧ ∃ q, global_lock_quit C11_THREADS_AVAILABLE p = returns q
    ∧ usable C11_THREADS_AVAILABLE (statics q) = false.
Proof.
  eexists. split; [vm_compute; reflexivity|].
  apply (shutdown_after_run (config C11_THREADS_AVAILABLE linux 1) 2
           (one_after_the_other 9 7));
    [vm_compute; reflexivity | vm_compute; reflexivity | lia | simpl; lia].
Defined.
